(** * geemap.cartoee: a shallow embedding and its verified properties

    The development follows [src/geemap/cartoee.py].  Numbers are exact
    rationals ([Qc]): this is the arithmetic Python performs on [int] and
    [fractions.Fraction] arguments, and the idealisation of what it
    performs on [float] (binary64 rounding is not modelled).  Dictionaries
    are [gmap string value]; caller-visible dictionaries live in a store
    and are passed by reference.  Remote services and the plotting toolkit
    are an oracle ([world]) plus a trace of the calls issued to them. *)

From Stdlib Require Import QArith Qcanon Qround ZArith Lia Lqa Ascii String.
From stdpp Require Import gmap strings list fin_maps.

Local Open Scope Qc_scope.
#[local] Set Warnings "-register-all".

(** ** Exceptions and the error monad of the pure helpers *)

Inductive exn :=
  | ValueError (msg : string)
  | KeyError (msg : string)
  | TypeError (msg : string)
  | IndexError
  | ZeroDivisionError
  | AttributeError (msg : string)
  | UnboundLocalError (var : string)
  | HTTPError (msg : string)
  | RemoteError (msg : string)
  | DanglingReference.

Inductive result (A : Type) :=
  | Ok (a : A)
  | Raise (e : exn).
Arguments Ok {A} a.
Arguments Raise {A} e.

#[global] Instance exn_eq_dec : EqDecision exn.
Proof. solve_decision. Defined.
#[global] Instance result_eq_dec `{EqDecision A} : EqDecision (result A).
Proof. solve_decision. Defined.

#[global] Instance result_ret : MRet result := λ A a, Ok a.
#[global] Instance result_bind : MBind result := λ A B f m,
  match m with Ok a => f a | Raise e => Raise e end.

Definition raises {A} (r : result A) : Prop := ∃ e, r = Raise e.

(** ** Exact numbers *)

Definition Qcfloor (x : Qc) : Z := Qfloor (this x).
Definition Qcceiling (x : Qc) : Z := Qceiling (this x).

(** A decimal literal of the source, e.g. [dec 12 10] for [1.2]. *)
Definition dec (n : Z) (d : positive) : Qc := Q2Qc (n # d).

(** Python's [x % m] on exact numbers: [x - m * floor (x / m)]; a zero
    modulus raises. *)
Definition py_rem (x m : Qc) : Qc := x - m * Qc_of_Z (Qcfloor (x / m)).

Definition py_mod (x m : Qc) : result Qc :=
  if decide (m = 0) then Raise ZeroDivisionError else Ok (py_rem x m).

(** [s[i]] on a list or tuple. *)
Definition subscript {A} (s : list A) (i : nat) : result A :=
  match s !! i with Some a => Ok a | None => Raise IndexError end.

(** ** Bounding boxes *)

(** A 4-tuple, read with [bbox[0]] .. [bbox[3]]. *)
Definition tuple4 (A : Type) : Type := A * A * A * A.
Definition item0 {A} (t : tuple4 A) : A := let '(a, _, _, _) := t in a.
Definition item1 {A} (t : tuple4 A) : A := let '(_, b, _, _) := t in b.
Definition item2 {A} (t : tuple4 A) : A := let '(_, _, c, _) := t in c.
Definition item3 {A} (t : tuple4 A) : A := let '(_, _, _, d) := t in d.

(** [_buffer_box], lines 365-396. *)
Definition _buffer_box (bbox : tuple4 Qc) (interval : Qc) : result (tuple4 Qc) :=
  r0 ← py_mod (item0 bbox) interval;
  xmin ← (if decide (r0 ≠ 0)
          then r ← py_mod (item0 bbox) interval; mret (item0 bbox - r)
          else mret (item0 bbox));
  r1 ← py_mod (item1 bbox) interval;
  xmax ← (if decide (r1 ≠ 0)
          then r ← py_mod (item1 bbox) interval; mret (item1 bbox + (interval - r))
          else mret (item1 bbox));
  r2 ← py_mod (item2 bbox) interval;
  ymin ← (if decide (r2 ≠ 0)
          then r ← py_mod (item2 bbox) interval; mret (item2 bbox - r)
          else mret (item2 bbox));
  r3 ← py_mod (item3 bbox) interval;
  ymax ← (if decide (r3 ≠ 0)
          then r ← py_mod (item3 bbox) interval; mret (item3 bbox + (interval - r))
          else mret (item3 bbox));
  mret (xmin, xmax, ymin, ymax).

(** [bbox_to_extent], lines 399-408. *)
Definition bbox_to_extent {A} (bbox : tuple4 A) : tuple4 A :=
  (item0 bbox, item2 bbox, item1 bbox, item3 bbox).

(** ** Tick sequences *)

(** [lo, lo + step, ..., lo + (n-1) * step]. *)
Definition steps_from (lo step : Qc) (n : nat) : list Qc :=
  map (λ k : nat, lo + Qc_of_Z (Z.of_nat k) * step) (seq 0 n).

(** [numpy.arange(start, stop, step)]: the values [start + i * step] of the
    half-open interval, [ceil ((stop - start) / step)] of them. *)
Definition np_arange (start stop step : Qc) : result (list Qc) :=
  if decide (step = 0) then Raise ZeroDivisionError
  else Ok (steps_from start step (Z.to_nat (Qcceiling ((stop - start) / step)))).

(** [numpy.linspace(start, stop, num)] with the default [endpoint=True]:
    [num] samples [start + i * (stop - start) / (num - 1)]. *)
Definition np_linspace (start stop : Qc) (num : Z) : result (list Qc) :=
  if decide (num < 0)%Z
  then Raise (ValueError "Number of samples must be non-negative")
  else if decide (0 < num - 1)%Z
       then Ok (steps_from start ((stop - start) / Qc_of_Z (num - 1)) (Z.to_nat num))
       else Ok (replicate (Z.to_nat num) start).

(** ** Gridline layout *)

(** An argument that is either a number or a list of them
    ([isinstance(_, Iterable)]). *)
Inductive scalar_or_seq (A : Type) :=
  | Scalar (a : A)
  | Seq (l : list A).
Arguments Scalar {A} a.
Arguments Seq {A} l.

Definition axis_item {A} (v : scalar_or_seq A) (i : nat) : result A :=
  match v with
  | Seq l => subscript l i
  | Scalar a => mret a
  end.

(** What [add_gridlines] hands to the axes: the gridline coordinates and
    the tick coordinates kept inside the view. *)
Record gridlines := Gridlines {
  xlocs : list Qc;
  ylocs : list Qc;
  xticks : list Qc;
  yticks : list Qc
}.

#[global] Instance gridlines_eq_dec : EqDecision gridlines.
Proof. solve_decision. Defined.

Definition within (lo hi : Qc) (l : list Qc) : list Qc :=
  filter (λ x, lo ≤ x ∧ x ≤ hi) l.

Definition no_tick_spec (axis : string) : exn :=
  ValueError ("one of variables interval, n_ticks, or " +:+ axis +:+ " must be defined").

(** [add_gridlines], lines 440-506; [view_extent] is [ax.get_extent()]. *)
Definition add_gridlines (view_extent : tuple4 Qc)
    (interval : option (scalar_or_seq Qc)) (n_ticks : option (scalar_or_seq Z))
    (xs ys : option (list Qc)) (buffer_out : bool) : result gridlines :=
  let extent := view_extent in
  '(xmain, extent) ←
    match xs, interval, n_ticks with
    | Some xs, _, _ => mret (xs, extent)
    | None, Some interval, _ =>
        xspace ← axis_item interval 0;
        extent ← (if buffer_out then _buffer_box extent xspace else mret extent);
        xmain ← np_arange (item0 extent) (item1 extent + xspace) xspace;
        mret (xmain, extent)
    | None, None, Some n_ticks =>
        n_x ← axis_item n_ticks 0;
        xmain ← np_linspace (item0 extent) (item1 extent) n_x;
        mret (xmain, extent)
    | None, None, None => Raise (no_tick_spec "xs")
    end;
  '(ymain, extent) ←
    match ys, interval, n_ticks with
    | Some ys, _, _ => mret (ys, extent)
    | None, Some interval, _ =>
        yspace ← axis_item interval 1;
        extent ← (if buffer_out then _buffer_box extent yspace else mret extent);
        ymain ← np_arange (item2 extent) (item3 extent + yspace) yspace;
        mret (ymain, extent)
    | None, None, Some n_ticks =>
        n_y ← axis_item n_ticks 1;
        ymain ← np_linspace (item2 extent) (item3 extent) n_y;
        mret (ymain, extent)
    | None, None, None => Raise (no_tick_spec "ys")
    end;
  mret {| xlocs := xmain;
          ylocs := ymain;
          xticks := within (item0 view_extent) (item1 view_extent) xmain;
          yticks := within (item2 view_extent) (item3 view_extent) ymain |}.

(** ** Python values *)

Inductive pyclass :=
  | ImageClass            (* ee.image.Image *)
  | GeoAxesClass          (* cartopy.mpl.geoaxes.GeoAxes *)
  | GeoAxesSubplotClass   (* cartopy.mpl.geoaxes.GeoAxesSubplot *)
  | OtherClass (name : string).

Inductive value :=
  | VNone
  | VBool (b : bool)
  | VInt (n : Z)
  | VFloat (x : Qc)
  | VStr (s : string)
  | VList (l : list value)
  | VTuple (l : list value)
  | VObj (cls : pyclass) (id : positive).

Inductive pytype :=
  | TNoneType | TBool | TInt | TFloat | TStr | TList | TTuple
  | TClass (cls : pyclass).

#[global] Instance pyclass_eq_dec : EqDecision pyclass.
Proof. solve_decision. Defined.
#[global] Instance pytype_eq_dec : EqDecision pytype.
Proof. solve_decision. Defined.

(** [type(v)]. *)
Definition type_of (v : value) : pytype :=
  match v with
  | VNone => TNoneType
  | VBool _ => TBool
  | VInt _ => TInt
  | VFloat _ => TFloat
  | VStr _ => TStr
  | VList _ => TList
  | VTuple _ => TTuple
  | VObj cls _ => TClass cls
  end.

(** Truth value of [v] in an [if]. *)
Definition truthy (v : value) : bool :=
  match v with
  | VNone => false
  | VBool b => b
  | VInt n => bool_decide (n ≠ 0%Z)
  | VFloat x => bool_decide (x ≠ 0)
  | VStr s => bool_decide (s ≠ "")
  | VList l | VTuple l => bool_decide (l ≠ [])
  | VObj _ _ => true
  end.

(** [v is None]. *)
Definition is_None (v : value) : bool :=
  match v with VNone => true | _ => false end.

(** [v[i]]. *)
Definition value_item (v : value) (i : nat) : result value :=
  match v with
  | VList l | VTuple l => subscript l i
  | VStr s =>
      match String.get i s with
      | Some c => Ok (VStr (String c ""))
      | None => Raise IndexError
      end
  | _ => Raise (TypeError "object is not subscriptable")
  end.

(** The number held by an [int] or [float]. *)
Definition number (v : value) : result Qc :=
  match v with
  | VInt n => Ok (Qc_of_Z n)
  | VFloat x => Ok x
  | _ => Raise (TypeError "a number is required")
  end.

(** [type(v) in (int, float)]. *)
Definition is_scalar (v : value) : bool :=
  bool_decide (type_of v = TInt) || bool_decide (type_of v = TFloat).

(** [cmap] when tested by [if cmap]: a non-empty name. *)
Definition cmap_given (cmap : option string) : bool :=
  match cmap with
  | Some name => bool_decide (name ≠ "")
  | None => false
  end.

(** Polygon coordinates as the geometry service returns them: rings of
    [lon, lat] points. *)
Definition coords : Type := list (list (Qc * Qc)).

Definition coords_value (c : coords) : value :=
  VList (map (λ ring, VList (map (λ p : Qc * Qc, VList [VFloat p.1; VFloat p.2]) ring)) c).

Definition Qcmin (x y : Qc) : Qc := if decide (y < x) then y else x.
Definition Qcmax (x y : Qc) : Qc := if decide (x < y) then y else x.

(** [min(l)] and [max(l)] of a non-empty sequence. *)
Definition py_min (l : list Qc) : result Qc :=
  match l with
  | [] => Raise (ValueError "min() arg is an empty sequence")
  | x :: l => Ok (foldl Qcmin x l)
  end.
Definition py_max (l : list Qc) : result Qc :=
  match l with
  | [] => Raise (ValueError "max() arg is an empty sequence")
  | x :: l => Ok (foldl Qcmax x l)
  end.

(** A decoded image: rows of pixels of channel values. *)
Definition pixels : Type := list (list (list Z)).

(** [image.shape[-1]] of a non-empty height x width x channels array. *)
Definition last_dim (image : pixels) : nat :=
  match image with
  | (px :: _) :: _ => length px
  | _ => 0
  end.

(** Lines 196-198: gray + alpha becomes gray, gray, gray, alpha. *)
Definition expand_gray_alpha (image : pixels) : pixels :=
  map (map (λ px, replicate 3 (default 0%Z (head px)) ++ drop (length px - 1) px)) image.

(** Colour maps and normalisations built by [add_colorbar]. *)
Inductive colormap :=
  | Registered (name : string)
  | ListedColormap (hexcodes : list string)
  | LinearSegmentedColormap (name : string) (hexcodes : list string) (N : Z).

Inductive norm :=
  | Normalize (vmin vmax : value)
  | BoundaryNorm (boundaries : list Qc) (ncolors : Z).

(** [cmap.N]. *)
Definition colormap_N (c : colormap) : Z :=
  match c with
  | Registered _ => 256
  | ListedColormap hexcodes => Z.of_nat (length hexcodes)
  | LinearSegmentedColormap _ _ N => N
  end.

(** ** The store, the trace and the oracle *)

Inductive geometry_query :=
  | RectangleInfo (region : value)     (* ee.Geometry.Rectangle(region).getInfo() *)
  | ImageBoundsInfo (img : positive).  (* img_obj.geometry(100).bounds().getInfo() *)

(** Calls that leave the module: remote requests and drawing. *)
Inductive event :=
  | EGetInfo (q : geometry_query)
  | EGetThumbUrl (img : positive) (args : gmap string value)
  | ERequestsGet (url : string)
  | EImshow (ax : positive) (image : pixels) (extent : value)
  | EAddAxes (ax : positive) (rect : tuple4 Qc)
  | ESubplotsAdjust (side : string) (x : Qc)
  | EWarn (msg : string)
  | EColorbarBase (cax : value) (n : norm) (alpha : value) (c : colormap)
                  (kwargs : gmap string value)
  | ESetLabel (label : value).

(** The dictionaries reachable by the caller, by reference, and the calls
    issued so far (oldest first). *)
Record state := State {
  heap : gmap positive (gmap string value);
  trace : list event
}.

(** What the collaborators answer. *)
Record world := World {
  rectangle_info : value → result coords;
  bounds_info : positive → result coords;
  get_thumb_url : positive → gmap string value → result string;
  requests_get : string → result (Z * string);
  error_message : string → result string;
  image_open : string → result pixels;
  cm_get_cmap : string → Z → result (Qc → list Qc);
  rgb2hex : list Qc → string;
  plt_get_cmap : string → result colormap;
  figure_add_axes : positive → tuple4 Qc → value;
  colorbar_base : value → norm → value → colormap → gmap string value → result unit
}.

(** State and exceptions: a raise keeps the state reached so far. *)
Definition M (A : Type) : Type := state → state * result A.

Definition retM {A} (a : A) : M A := λ s, (s, Ok a).
Definition bindM {A B} (m : M A) (f : A → M B) : M B := λ s,
  match m s with
  | (s', Ok a) => f a s'
  | (s', Raise e) => (s', Raise e)
  end.
Definition raise {A} (e : exn) : M A := λ s, (s, Raise e).
Definition lift {A} (r : result A) : M A := λ s, (s, r).
Definition emit (e : event) : M unit := λ s,
  (State (heap s) (trace s ++ [e]), Ok tt).

(** A new dictionary object. *)
Definition alloc (d : gmap string value) : M positive := λ s,
  let l := fresh (dom (heap s)) in
  (State (<[l := d]> (heap s)) (trace s), Ok l).
(** The entries of the dictionary behind a reference. *)
Definition load (l : positive) : M (gmap string value) := λ s,
  match heap s !! l with
  | Some d => (s, Ok d)
  | None => (s, Raise DanglingReference)
  end.
(** [d[k] = v] on the dictionary behind a reference. *)
Definition store (l : positive) (k : string) (v : value) : M unit := λ s,
  match heap s !! l with
  | Some d => (State (<[l := <[k := v]> d]> (heap s)) (trace s), Ok tt)
  | None => (s, Raise DanglingReference)
  end.

#[global] Instance M_ret : MRet M := @retM.
#[global] Instance M_bind : MBind M := λ A B f m, bindM m f.

Definition when (b : bool) (m : M unit) : M unit := if b then m else retM tt.

(** ** Palette builder *)

(** [build_palette], lines 210-225. *)
Definition build_palette (w : world) (cmap : string) (n : Z) : result (list string) :=
  colormap ← cm_get_cmap w cmap n;
  vals ← np_linspace 0 1 n;
  mret (map (λ x, rgb2hex w (take 3 (colormap x))) vals).

(** [",".join(l)]. *)
Definition join (sep : string) (l : list string) : string := String.concat sep l.

(** ** Layer renderer *)

Definition not_image : exn := ValueError "provided `img_obj` is not of type ee.Image".
Definition bad_dims : exn := ValueError "provided dims not of type list, tuple, or int".
Definition bad_axes : exn :=
  ValueError "provided axes not of type cartopy.mpl.geoaxes.GeoAxes or cartopy.mpl.geoaxes.GeoAxesSubplot".
Definition palette_conflict : exn :=
  KeyError "cannot provide `palette` in vis_params if `cmap` is specified".

(** Lines 150-157: the region sent to the service and the extent drawn. *)
Definition resolve_region (w : world) (img : positive) (region : value)
    : M (coords * value) :=
  if negb (is_None region) then
    emit (EGetInfo (RectangleInfo region));;
    map_region ← lift (rectangle_info w region);
    r0 ← lift (value_item region 0);
    r2 ← lift (value_item region 2);
    r1 ← lift (value_item region 1);
    r3 ← lift (value_item region 3);
    mret (map_region, VTuple [r0; r2; r1; r3])
  else
    emit (EGetInfo (ImageBoundsInfo img));;
    map_region ← lift (bounds_info w img);
    ring ← lift (subscript map_region 0);
    '(x, y) ← (if decide (ring = [])
               then raise (ValueError "not enough values to unpack (expected 2, got 0)")
               else mret (ring.*1, ring.*2));
    xmin ← lift (py_min x);
    xmax ← lift (py_max x);
    ymin ← lift (py_min y);
    ymax ← lift (py_max y);
    mret (map_region, VList [VFloat xmin; VFloat xmax; VFloat ymin; VFloat ymax]).

(** [if vis_params:] on [None] or a reference to a dictionary. *)
Definition dict_given (vis_params : option positive) : M (option (gmap string value)) :=
  match vis_params with
  | None => mret None
  | Some l => d ← load l; mret (if decide (dom d = ∅) then None else Some d)
  end.

(** Lines 168-185: the dictionary sent with the thumbnail request. *)
Definition request_args (w : world) (map_region : coords) (dims region : value)
    (cmap : option string) (vis_params : option positive) : M positive :=
  args ← alloc {[ "format" := VStr "png" ]};
  when (truthy region) (store args "region" (coords_value map_region));;
  when (truthy dims) (store args "dimensions" dims);;
  given ← dict_given vis_params;
  match given with
  | Some vis =>
      (if cmap_given cmap && bool_decide ("palette" ∈ dom vis)
       then raise palette_conflict
       else if cmap_given cmap
       then palette ← lift (build_palette w (default "" cmap) 256);
            store args "palette" (VStr (join "," palette))
       else mret tt);;
      d ← load args;
      alloc (vis ∪ d)
  | None => mret args
  end.

(** [add_layer], lines 147-207. *)
Definition add_layer (w : world) (ax img_obj dims region : value)
    (cmap : option string) (vis_params : option positive) : M unit :=
  img ← match img_obj with
        | VObj ImageClass img => mret img
        | _ => raise not_image
        end;
  '(map_region, view_extent) ← resolve_region w img region;
  when (bool_decide (type_of dims ∉ [TList; TTuple; TInt])) (raise bad_dims);;
  ax_id ← match ax with
          | VObj GeoAxesClass a | VObj GeoAxesSubplotClass a => mret a
          | _ => raise bad_axes
          end;
  args ← request_args w map_region dims region cmap vis_params;
  d ← load args;
  emit (EGetThumbUrl img d);;
  url ← lift (get_thumb_url w img d);
  emit (ERequestsGet url);;
  '(status_code, content) ← lift (requests_get w url);
  when (bool_decide (status_code ≠ 200%Z))
       (error ← lift (error_message w content); raise (HTTPError error));;
  image ← lift (image_open w content);
  let image := if decide (last_dim image = 2%nat) then expand_gray_alpha image else image in
  emit (EImshow ax_id image view_extent).

(** ** Colorbar composer *)

Definition no_placement : exn := ValueError "loc or cax keywords must be specified".
Definition bad_loc : exn :=
  ValueError "provided loc not of type str. options are left, top, right, or bottom".
Definition no_color_source : exn :=
  ValueError "cmap keyword or palette key in visParams must be provided".
Definition discrete_warning : string :=
  "discrete keyword used when palette key is supplied with visParams, creating a continuous colorbar...".

(** Lines 257-262. *)
Definition posOpts : gmap string (tuple4 Qc) :=
  {[ "left" := (dec 1 100, dec 25 100, dec 2 100, dec 5 10);
     "right" := (dec 88 100, dec 25 100, dec 2 100, dec 5 10);
     "bottom" := (dec 25 100, dec 15 100, dec 5 10, dec 2 100);
     "top" := (dec 25 100, dec 88 100, dec 5 10, dec 2 100) ]}.

(** Lines 255-284: the drawing sub-region and the keyword arguments left
    for the colorbar constructor. *)
Definition resolve_placement (w : world) (ax_id : positive) (loc : value)
    (kwargs : gmap string value) : M (value * gmap string value) :=
  if truthy loc then
    match loc with
    | VStr name =>
        if bool_decide (name ∈ ["left"; "right"; "bottom"; "top"]) then
          rect ← lift (match posOpts !! name with
                       | Some rect => Ok rect
                       | None => Raise (KeyError name)
                       end);
          emit (EAddAxes ax_id rect);;
          (if decide (name = "left") then emit (ESubplotsAdjust "left" (dec 18 100))
           else if decide (name = "right") then emit (ESubplotsAdjust "right" (dec 85 100))
           else mret tt);;
          mret (figure_add_axes w ax_id rect, kwargs)
        else raise bad_loc
    | _ => raise bad_loc
    end
  else
    match kwargs !! "cax" with
    | Some cax => mret (cax, delete "cax" kwargs)
    | None => raise no_placement
    end.

(** Lines 288-309: [vmin], [vmax] and [alpha]. *)
Definition colorbar_scalars (vis kwargs : gmap string value)
    : result (value * value * value) :=
  vmin ← match vis !! "min" with
         | Some vmin =>
             if is_scalar vmin then mret vmin
             else Raise (ValueError "provided min value not of scalar type")
         | None => mret (VInt 0)
         end;
  vmax ← match vis !! "max" with
         | Some vmax =>
             if is_scalar vmax then mret vmax
             else Raise (ValueError "provided max value not of scalar type")
         | None => mret (VInt 1)
         end;
  alpha ← match vis !! "opacity" with
          | Some alpha =>
              if is_scalar alpha then mret alpha
              else Raise (ValueError "provided opacity value of not type scalar")
          | None =>
              match kwargs !! "alpha" with
              | Some alpha => mret alpha
              | None => mret (VInt 1)
              end
          end;
  mret (vmin, vmax, alpha).

(** [s.split(",")] for a one-character separator. *)
Fixpoint split_on (sep : ascii) (s : string) : list string :=
  match s with
  | EmptyString => [EmptyString]
  | String c s' =>
      if decide (c = sep) then EmptyString :: split_on sep s'
      else match split_on sep s' with
           | h :: t => String c h :: t
           | [] => [String c EmptyString]
           end
  end.

(** Line 324: [i if i[0] == "#" else "#" + i]. *)
Definition with_hash (i : string) : result string :=
  match i with
  | EmptyString => Raise IndexError
  | String c _ => if decide (c = "#"%char) then Ok i else Ok ("#" +:+ i)
  end.

(** Lines 311-353: the colour map and the normalisation; [cmap] is the
    keyword argument, [None] or a registered name. *)
Definition colorbar_colors (w : world) (vis : gmap string value)
    (cmap : option string) (discrete : bool) (vmin vmax : value)
    : M (colormap * norm) :=
  given ← match cmap with
          | Some name =>
              when discrete (emit (EWarn discrete_warning));;
              c ← lift (plt_get_cmap w name);
              mret (Some c)
          | None => mret None
          end;
  match vis !! "palette", given with
  | Some palette, _ =>
      hexcodes ← lift (match palette with
                       | VStr s => Ok (split_on ","%char s)
                       | _ => Raise (AttributeError "object has no attribute 'split'")
                       end);
      hexcodes ← lift (mapM with_hash hexcodes);
      if discrete then
        let c := ListedColormap hexcodes in
        lo ← lift (number vmin);
        hi ← lift (number vmax);
        vals ← lift (np_linspace lo hi (colormap_N c + 1));
        mret (c, BoundaryNorm vals (colormap_N c))
      else
        mret (LinearSegmentedColormap "custom" hexcodes 256, Normalize vmin vmax)
  | None, Some c =>
      when discrete (emit (EWarn discrete_warning));;
      mret (c, Normalize vmin vmax)
  | None, None => raise no_color_source
  end.

(** The interpreter rejects a keyword passed both by name and through
    [**kwargs]. *)
Definition repeated_keyword (kwargs : gmap string value) : option string :=
  if decide ("norm" ∈ dom kwargs) then Some "norm"
  else if decide ("alpha" ∈ dom kwargs) then Some "alpha"
  else if decide ("cmap" ∈ dom kwargs) then Some "cmap"
  else None.

(** Lines 286-362: everything after the placement; [cax] and [kwargs] are
    the ones the placement left. *)
Definition colorbar_body (w : world) (vis_params : option positive)
    (cmap : option string) (discrete : bool) (label : option string)
    (cax : value) (kwargs : gmap string value) : M unit :=
  vis ← match vis_params with
        | Some l => load l
        | None => raise (AttributeError "'NoneType' object has no attribute 'keys'")
        end;
  bound ← (if decide (dom vis = ∅) then mret None
           else
             '(vmin, vmax, alpha) ← lift (colorbar_scalars vis kwargs);
             '(c, n) ← colorbar_colors w vis cmap discrete vmin vmax;
             mret (Some (n, alpha, c)));
  '(n, alpha, c) ← match bound with
                   | Some locals => mret locals
                   | None => raise (UnboundLocalError "norm")
                   end;
  match repeated_keyword kwargs with
  | Some k => raise (TypeError ("got multiple values for keyword argument " +:+ k))
  | None => mret tt
  end;;
  emit (EColorbarBase cax n alpha c kwargs);;
  lift (colorbar_base w cax n alpha c kwargs);;
  match vis !! "bands", label with
  | Some bands, _ => emit (ESetLabel bands)
  | None, Some label => emit (ESetLabel (VStr label))
  | None, None => mret tt
  end.

(** [add_colorbar], lines 249-362. *)
Definition add_colorbar (w : world) (ax : value) (vis_params : option positive)
    (loc : value) (cmap : option string) (discrete : bool)
    (label : option string) (kwargs : gmap string value) : M unit :=
  ax_id ← match ax with
          | VObj GeoAxesClass a | VObj GeoAxesSubplotClass a => mret a
          | _ => raise bad_axes
          end;
  '(cax, kwargs) ← resolve_placement w ax_id loc kwargs;
  colorbar_body w vis_params cmap discrete label cax kwargs.

(** ** A stub of the collaborators, for concrete runs *)

Definition square : coords :=
  [[(0, 0); (Qc_of_Z 10, 0); (Qc_of_Z 10, Qc_of_Z 10); (0, Qc_of_Z 10); (0, 0)]].

Definition stub_world : world := {|
  rectangle_info := λ _, Ok square;
  bounds_info := λ _, Ok square;
  get_thumb_url := λ _ _, Ok "https://thumbnail";
  requests_get := λ _, Ok (200%Z, "png");
  error_message := λ content, Ok content;
  image_open := λ _, Ok [[[0%Z; 255%Z]]];
  cm_get_cmap := λ _ _, Ok (λ x, [x; x; x; 1]);
  rgb2hex := λ _, "#000000";
  plt_get_cmap := λ name, Ok (Registered name);
  figure_add_axes := λ ax _, VObj (OtherClass "Axes") (ax + 1);
  colorbar_base := λ _ _ _ _ _, Ok tt
|}.

Definition an_image : value := VObj ImageClass 7.
Definition an_axes : value := VObj GeoAxesSubplotClass 3.

(** A store whose only dictionary, at reference 1, is [vis]. *)
Definition store_with (vis : gmap string value) : state :=
  State {[ 1%positive := vis ]} [].

(** The calls that fetch the thumbnail. *)
Definition is_fetch (e : event) : bool :=
  match e with
  | EGetThumbUrl _ _ | ERequestsGet _ => true
  | _ => false
  end.

(** The arguments of the thumbnail requests of a trace. *)
Definition thumbnail_requests (t : list event) : list (gmap string value) :=
  omap (λ e, match e with EGetThumbUrl _ args => Some args | _ => None end) t.

(** ** Vocabulary of the statements *)

(** [x] is an integer multiple of [m]. *)
Definition multiple_of (m x : Qc) : Prop := ∃ k : Z, x = Qc_of_Z k * m.

(** One bound of [_buffer_box]: the lower bounds take the first form, the
    upper bounds the second. *)
Definition round_down (m x : Qc) : Qc :=
  if decide (py_rem x m ≠ 0) then x - py_rem x m else x.
Definition round_up (m x : Qc) : Qc :=
  if decide (py_rem x m ≠ 0) then x + (m - py_rem x m) else x.

(** The box [outer] contains the box [inner] (both as xmin, xmax, ymin, ymax). *)
Definition box_contains (outer inner : tuple4 Qc) : Prop :=
  item0 outer ≤ item0 inner ∧ item1 inner ≤ item1 outer ∧
  item2 outer ≤ item2 inner ∧ item3 inner ≤ item3 outer.

(** The ticks are [lo], [lo + step], ... and end exactly on [hi]. *)
Definition inclusive_run (lo hi step : Qc) (ticks : list Qc) : Prop :=
  ∃ N : nat, ticks = steps_from lo step (S N) ∧
             lo + Qc_of_Z (Z.of_nat N) * step = hi.

(** The ticks are [lo], [lo + step], ... and end on the first of these
    values that reaches [hi]. *)
Definition covering_run (lo hi step : Qc) (ticks : list Qc) : Prop :=
  ∃ N : nat, ticks = steps_from lo step (S N) ∧
             hi ≤ lo + Qc_of_Z (Z.of_nat N) * step ∧
             lo + Qc_of_Z (Z.of_nat N) * step < hi + step.

(** [n] ticks at equal distances, the first on [lo] and (from two ticks
    on) the last on [hi]. *)
Definition evenly_spaced (lo hi : Qc) (n : Z) (ticks : list Qc) : Prop :=
  length ticks = Z.to_nat n ∧
  (∀ k : nat, (k < Z.to_nat n)%nat →
     ticks !! k = Some (lo + Qc_of_Z (Z.of_nat k) * ((hi - lo) / Qc_of_Z (n - 1)))) ∧
  ((1 ≤ n)%Z → head ticks = Some lo) ∧
  ((2 ≤ n)%Z → last ticks = Some hi).

(** [wp m s Q]: running [m] from [s] ends in a state and a result that
    satisfy [Q]. *)
Definition wp {A} (m : M A) (s : state) (Q : state → result A → Prop) : Prop :=
  Q (m s).1 (m s).2.

(** While the request dictionary [a] is being filled: nothing is emitted and
    the dictionaries of the initial state [s] are as they were. *)
Definition filling (s : state) (a : positive) (cur : state) : Prop :=
  trace cur = trace s ∧
  (∀ l d, heap s !! l = Some d → heap cur !! l = Some d) ∧
  heap s !! a = None ∧ is_Some (heap cur !! a).

(** The request dictionary as a function of the arguments: what lines
    168-185 leave in [args] when [vis_params] is [None] ([vis = None]) or
    refers to the dictionary [vis]. *)
Definition base_args (map_region : coords) (dims region : value) : gmap string value :=
  let args := {[ "format" := VStr "png" ]} in
  let args := if truthy region then <[ "region" := coords_value map_region ]> args else args in
  if truthy dims then <[ "dimensions" := dims ]> args else args.

Definition merged_args (w : world) (map_region : coords) (dims region : value)
    (cmap : option string) (vis : option (gmap string value))
    : result (gmap string value) :=
  let args := base_args map_region dims region in
  match vis with
  | Some vis =>
      if decide (dom vis = ∅) then Ok args
      else if cmap_given cmap && bool_decide ("palette" ∈ dom vis)
      then Raise palette_conflict
      else if cmap_given cmap
      then palette ← build_palette w (default "" cmap) 256;
           Ok (vis ∪ <[ "palette" := VStr (join "," palette) ]> args)
      else Ok (vis ∪ args)
  | None => Ok args
  end.

(** The dictionary [vis_params] refers to in [s]. *)
Definition referred (s : state) (vis_params : option positive)
    (vis : option (gmap string value)) : Prop :=
  match vis_params with
  | Some l => ∃ d, heap s !! l = Some d ∧ vis = Some d
  | None => vis = None
  end.



(** ** View padding *)

(** Lines 525-528: [xfactor, yfactor = factor] for a list, the same number
    twice otherwise. *)
Definition factor_pair (factor : scalar_or_seq Qc) : result (Qc * Qc) :=
  match factor with
  | Seq [xfactor; yfactor] => Ok (xfactor, yfactor)
  | Seq [] | Seq [_] => Raise (ValueError "not enough values to unpack (expected 2)")
  | Seq _ => Raise (ValueError "too many values to unpack (expected 2)")
  | Scalar factor => Ok (factor, factor)
  end.

(** The limits [pad_view] sets: [set_ylim] first, then [set_xlim]. *)
Record limits := Limits {
  ylim : Qc * Qc;
  xlim : Qc * Qc
}.

(** [pad_view], lines 523-539; [view_extent] is [ax.get_extent()]. *)
Definition pad_view (view_extent : tuple4 Qc) (factor : scalar_or_seq Qc)
    : result limits :=
  '(xfactor, yfactor) ← factor_pair factor;
  let x_diff := item1 view_extent - item0 view_extent in
  let y_diff := item3 view_extent - item2 view_extent in
  let xmin := item0 view_extent - (x_diff * xfactor) in
  let xmax := item1 view_extent + (x_diff * xfactor) in
  let ymin := item2 view_extent - (y_diff * yfactor) in
  let ymax := item3 view_extent + (y_diff * yfactor) in
  mret {| ylim := (ymin, ymax); xlim := (xmin, xmax) |}.

(** ** Dependency check *)

(** What [check_dependencies] does to the machine: log lines and shell
    commands. *)
Inductive shell_event :=
  | LoggedInfo (msg : string)
  | RanCommand (cmd : string).

(** The machine: whether [sys.prefix] has a [conda-meta] directory, the
    modules [importlib.import_module] finds, and what was logged and run. *)
Record machine := Machine {
  conda_meta : bool;
  modules : gset string;
  shell : list shell_event
}.

(** How a call of [check_dependencies] ends. *)
Inductive outcome :=
  | Returned
  | Raised (message : string).

(** Line 52. *)
Definition dependencies : list string := ["cartopy"; "pillow"; "scipy"].

Definition install_command (dependency : string) : string :=
  "conda install -c conda-forge " +:+ dependency +:+ " -y".

(** Lines 59-80, one turn of the first loop; [conda] answers an install
    command with the modules importable afterwards and its output. *)
Definition try_install (conda : string → gset string → gset string * string)
    (m : machine) (dependency : string) : machine :=
  if decide (dependency ∈ modules m) then m
  else
    let '(found, out) := conda dependency (modules m) in
    Machine (conda_meta m) found
      (shell m ++
       [LoggedInfo ("The " +:+ dependency +:+ " package is not installed. Trying install...");
        LoggedInfo ("Installing " +:+ dependency +:+ " ...");
        RanCommand (install_command dependency);
        LoggedInfo out]).

Definition no_conda : string :=
  "Auto installation requires `conda`. Please install conda using the following instructions before use: https://docs.conda.io/projects/conda/en/latest/user-guide/install/".

Definition install_failed (failed : list string) : string :=
  "Auto installation failed...the following dependencies were not installed '"
  +:+ join "," failed +:+ "'".

(** [check_dependencies], lines 39-101. *)
Definition check_dependencies (conda : string → gset string → gset string * string)
    (m : machine) : machine * outcome :=
  if negb (conda_meta m) then (m, Raised no_conda)
  else
    let m := foldl (try_install conda) m dependencies in
    let failed := filter (λ dependency, dependency ∉ modules m) dependencies in
    if decide (0 < length failed)%nat then (m, Raised (install_failed failed))
    else (Machine (conda_meta m) (modules m)
            (shell m ++ [LoggedInfo "All dependencies are successfully imported/installed!"]),
          Returned).

(** The shell commands among the events. *)
Definition commands_run (events : list shell_event) : list string :=
  omap (λ e, match e with RanCommand cmd => Some cmd | LoggedInfo _ => None end) events.

(** ** More vocabulary *)

(** Lines 187-205 of [add_layer]: the request, the fetch and the drawing,
    once the request dictionary [d] is complete. *)
Definition fetch_and_draw (w : world) (img ax_id : positive) (view_extent : value)
    (d : gmap string value) : M unit :=
  emit (EGetThumbUrl img d);;
  url ← lift (get_thumb_url w img d);
  emit (ERequestsGet url);;
  '(status_code, content) ← lift (requests_get w url);
  when (bool_decide (status_code ≠ 200%Z))
       (error ← lift (error_message w content); raise (HTTPError error));;
  image ← lift (image_open w content);
  let image := if decide (last_dim image = 2%nat) then expand_gray_alpha image else image in
  emit (EImshow ax_id image view_extent).

Definition is_imshow (e : event) : bool :=
  match e with EImshow _ _ _ => true | _ => false end.

(** A hex code as line 324 leaves it. *)
Definition hashed (i : string) : string :=
  match i with
  | String "#" _ => i
  | _ => "#" +:+ i
  end.

Definition starts_with_hash (i : string) : Prop := ∃ rest, i = String "#" rest.

(** The extents of the images drawn in a trace. *)
Definition drawn_extents (t : list event) : list value :=
  omap (λ e, match e with EImshow _ _ extent => Some extent | _ => None end) t.

(** A 4-tuple as a Python tuple. *)
Definition tuple_value (t : tuple4 value) : value :=
  VTuple [item0 t; item1 t; item2 t; item3 t].

(** The colorbars constructed in a trace: normalisation, opacity and colour
    map of each. *)
Definition colorbars (t : list event) : list (norm * value * colormap) :=
  omap (λ e, match e with EColorbarBase _ n alpha c _ => Some (n, alpha, c) | _ => None end) t.

(** * Exact arithmetic *)

Lemma Qc_eq_Qeq (x y : Qc) : x = y ↔ (this x == this y)%Q.
Proof. split; [by intros -> | apply Qc_is_canon]. Qed.

(** Linear goals over [Qc] are sent to [lra] over [Q]. *)
Ltac qc_to_q :=
  repeat match goal with
  | H : @eq Qc _ _ |- _ => apply Qc_eq_Qeq in H
  | H : ¬ @eq Qc _ _ |- _ => rewrite Qc_eq_Qeq in H
  | |- @eq Qc _ _ => apply Qc_eq_Qeq
  | |- ¬ @eq Qc _ _ => rewrite Qc_eq_Qeq
  end;
  unfold Qcle, Qclt, Qcminus, Qcplus, Qcmult, Qcopp, Q2Qc in *; cbn [this] in *;
  rewrite ?Qred_correct in *.
Ltac qc_lra := qc_to_q; lra.

(** Closed equations between values that hold rationals are decided. *)
Ltac by_decision := apply (bool_decide_unpack _); vm_compute; exact I.

Lemma Qcfloor_bounds (x : Qc) :
  Qc_of_Z (Qcfloor x) ≤ x ∧ x < Qc_of_Z (Qcfloor x) + 1.
Proof.
  split.
  - apply Qfloor_le.
  - rewrite <- Z2Qc_inj_1, <- Z2Qc_inj_add. apply Qlt_floor.
Qed.

Lemma Qcceiling_bounds (x : Qc) :
  Qc_of_Z (Qcceiling x) - 1 < x ∧ x ≤ Qc_of_Z (Qcceiling x).
Proof.
  split.
  - rewrite <- Z2Qc_inj_1, <- Z2Qc_inj_sub. apply Qceiling_lt.
  - apply Qle_ceiling.
Qed.

Lemma Qcfloor_Z (k : Z) : Qcfloor (Qc_of_Z k) = k.
Proof. apply Qfloor_Z. Qed.

Lemma Qcceiling_Z (k : Z) : Qcceiling (Qc_of_Z k) = k.
Proof. apply Qceiling_Z. Qed.

Lemma Qc_pos_neq_0 (m : Qc) : 0 < m → m ≠ 0.
Proof. intros Hm ->. by apply (Qclt_not_eq 0 0). Qed.

(** ** Python's remainder *)

Lemma py_mod_zero (x : Qc) : py_mod x 0 = Raise ZeroDivisionError.
Proof. unfold py_mod. by rewrite decide_True. Qed.

Lemma buffer_box_zero (bbox : tuple4 Qc) : _buffer_box bbox 0 = Raise ZeroDivisionError.
Proof. unfold _buffer_box. by rewrite py_mod_zero. Qed.

Lemma sub_rem_multiple (x m : Qc) : multiple_of m (x - py_rem x m).
Proof. exists (Qcfloor (x / m)). unfold py_rem. ring. Qed.

Lemma add_rem_multiple (x m : Qc) : multiple_of m (x + (m - py_rem x m)).
Proof.
  exists (Qcfloor (x / m) + 1)%Z.
  rewrite Z2Qc_inj_add, Z2Qc_inj_1. unfold py_rem. ring.
Qed.

(** ** The bounds of [_buffer_box], for an interval other than zero *)

Section nonzero_interval.

Context (m : Qc) (Hm : m ≠ 0).

Lemma py_mod_nonzero (x : Qc) : py_mod x m = Ok (py_rem x m).
Proof. unfold py_mod. by rewrite decide_False. Qed.

Lemma py_rem_of_multiple (k : Z) : py_rem (Qc_of_Z k * m) m = 0.
Proof. unfold py_rem. rewrite Qcdiv_mult_l, Qcfloor_Z by done. ring. Qed.

Lemma py_rem_zero_iff (x : Qc) : py_rem x m = 0 ↔ multiple_of m x.
Proof.
  split.
  - intros H. exists (Qcfloor (x / m)). unfold py_rem in H.
    set (k := Qc_of_Z (Qcfloor (x / m))) in *. clearbody k.
    rewrite (Qcmult_comm k m). set (p := m * k) in *. clearbody p. qc_lra.
  - intros [k ->]. apply py_rem_of_multiple.
Qed.

Lemma buffer_box_unfold (b0 b1 b2 b3 : Qc) :
  _buffer_box (b0, b1, b2, b3) m
  = Ok (round_down m b0, round_up m b1, round_down m b2, round_up m b3).
Proof.
  unfold _buffer_box, round_down, round_up. cbn [item0 item1 item2 item3].
  rewrite !py_mod_nonzero. cbn.
  repeat case_decide; cbn; rewrite ?py_mod_nonzero; reflexivity.
Qed.

Lemma buffer_box_total (bbox : tuple4 Qc) : ∃ out, _buffer_box bbox m = Ok out.
Proof. destruct bbox as [[[b0 b1] b2] b3]. eexists. apply buffer_box_unfold. Qed.

Lemma round_down_multiple (x : Qc) : multiple_of m (round_down m x).
Proof.
  unfold round_down. case_decide as H.
  - apply sub_rem_multiple.
  - apply py_rem_zero_iff. by destruct (decide (py_rem x m = 0)).
Qed.

Lemma round_up_multiple (x : Qc) : multiple_of m (round_up m x).
Proof.
  unfold round_up. case_decide as H.
  - apply add_rem_multiple.
  - apply py_rem_zero_iff. by destruct (decide (py_rem x m = 0)).
Qed.

Lemma round_down_fixed (x : Qc) : multiple_of m x → round_down m x = x.
Proof.
  intros Hx%py_rem_zero_iff. unfold round_down.
  by rewrite decide_False by (by intros []).
Qed.

Lemma round_up_fixed (x : Qc) : multiple_of m x → round_up m x = x.
Proof.
  intros Hx%py_rem_zero_iff. unfold round_up.
  by rewrite decide_False by (by intros []).
Qed.

Lemma buffer_box_unfold_twice (b0 b1 b2 b3 : Qc) :
  _buffer_box (round_down m b0, round_up m b1, round_down m b2, round_up m b3) m
  = Ok (round_down m b0, round_up m b1, round_down m b2, round_up m b3).
Proof.
  rewrite buffer_box_unfold.
  by rewrite (round_down_fixed (round_down m b0)), (round_up_fixed (round_up m b1)),
    (round_down_fixed (round_down m b2)), (round_up_fixed (round_up m b3))
    by auto using round_down_multiple, round_up_multiple.
Qed.

End nonzero_interval.

Create HintDb buffer discriminated.
#[global] Hint Resolve round_down_multiple round_up_multiple : buffer.

Lemma buffer_box_fixed (bbox out : tuple4 Qc) (m : Qc) :
  _buffer_box bbox m = Ok out → _buffer_box out m = Ok out.
Proof.
  destruct (decide (m = 0)) as [->|Hm]; [by rewrite buffer_box_zero|].
  destruct bbox as [[[b0 b1] b2] b3]. rewrite buffer_box_unfold by done.
  intros [= <-]. by apply buffer_box_unfold_twice.
Qed.

(** ** The bounds of [_buffer_box], for a positive interval *)

Section positive_interval.

Context (m : Qc) (Hm : 0 < m).

Lemma py_rem_bounds (x : Qc) : 0 ≤ py_rem x m ∧ py_rem x m < m.
Proof.
  pose proof (Qc_pos_neq_0 m Hm) as Hm0.
  destruct (Qcfloor_bounds (x / m)) as [Hlo Hhi].
  apply (Qcmult_le_mono_pos_l _ _ m Hm) in Hlo.
  apply (Qcmult_lt_mono_pos_l _ _ m Hm) in Hhi.
  rewrite Qcmult_div_r in Hlo, Hhi by done.
  rewrite Qcmult_plus_distr_r, Qcmult_1_r in Hhi.
  unfold py_rem. set (p := m * Qc_of_Z (Qcfloor (x / m))) in *.
  clearbody p. split; qc_lra.
Qed.

Lemma round_down_bounds (x : Qc) : x - m < round_down m x ∧ round_down m x ≤ x.
Proof.
  destruct (py_rem_bounds x) as [H0 H1].
  unfold round_down. set (r := py_rem x m) in *. clearbody r.
  case_decide; split; qc_lra.
Qed.

Lemma round_up_bounds (x : Qc) : x ≤ round_up m x ∧ round_up m x < x + m.
Proof.
  destruct (py_rem_bounds x) as [H0 H1].
  unfold round_up. set (r := py_rem x m) in *. clearbody r.
  case_decide; split; qc_lra.
Qed.

Lemma buffer_box_contains (bbox out : tuple4 Qc) :
  _buffer_box bbox m = Ok out → box_contains out bbox.
Proof.
  destruct bbox as [[[b0 b1] b2] b3].
  rewrite buffer_box_unfold by (by apply Qc_pos_neq_0). intros [= <-].
  destruct (round_down_bounds b0) as [_ ?], (round_up_bounds b1) as [? _],
    (round_down_bounds b2) as [_ ?], (round_up_bounds b3) as [? _].
  by unfold box_contains.
Qed.

End positive_interval.

(** * Bounding-box helpers: specified properties *)

(** C6, counterexample.  The specification says that applying [bbox_to_extent] twice
    does not give back the original order; on the tuple (w, s, e, n) it
    does. *)
Lemma bbox_to_extent_twice_restores :
  ¬ (bbox_to_extent (bbox_to_extent ("w", "s", "e", "n")) ≠ ("w", "s", "e", "n")).
Proof. intros H. by apply H. Qed.

(** C6, as amended.  [bbox_to_extent] maps every 4-tuple (w, s, e, n) to
    (w, e, s, n), whatever the elements are (no validation), and applying it
    twice returns the original tuple: it swaps the two middle positions. *)
Theorem bbox_to_extent_swaps_middle {A : Type} (w s e n : A) :
  bbox_to_extent (w, s, e, n) = (w, e, s, n) ∧
  bbox_to_extent (bbox_to_extent (w, s, e, n)) = (w, s, e, n).
Proof. split; reflexivity. Qed.






(** * Tick sequences *)

Lemma steps_from_length (lo step : Qc) (n : nat) : length (steps_from lo step n) = n.
Proof. unfold steps_from. by rewrite length_map, length_seq. Qed.

Lemma steps_from_lookup (lo step : Qc) (n k : nat) :
  (k < n)%nat →
  steps_from lo step n !! k = Some (lo + Qc_of_Z (Z.of_nat k) * step).
Proof.
  intros Hk. unfold steps_from. rewrite list_lookup_fmap.
  by rewrite lookup_seq_lt.
Qed.

Lemma steps_from_head (lo step : Qc) (n : nat) :
  head (steps_from lo step (S n)) = Some lo.
Proof.
  rewrite head_lookup, steps_from_lookup by lia. f_equal.
  change (Z.of_nat 0) with 0%Z. rewrite Z2Qc_inj_0. ring.
Qed.

Lemma steps_from_last (lo step : Qc) (n : nat) :
  last (steps_from lo step (S n)) = Some (lo + Qc_of_Z (Z.of_nat n) * step).
Proof.
  rewrite last_lookup, steps_from_length. cbn [pred]. apply steps_from_lookup. lia.
Qed.

Lemma arange_inclusive (lo hi step : Qc) (N : nat) :
  0 < step →
  lo + Qc_of_Z (Z.of_nat N) * step = hi →
  np_arange lo (hi + step) step = Ok (steps_from lo step (S N)).
Proof.
  intros Hstep <-. pose proof (Qc_pos_neq_0 step Hstep) as Hne.
  unfold np_arange. rewrite decide_False by done. do 2 f_equal.
  replace ((lo + Qc_of_Z (Z.of_nat N) * step + step - lo) / step)
    with (Qc_of_Z (Z.of_nat N + 1)).
  - rewrite Qcceiling_Z. lia.
  - rewrite Z2Qc_inj_add, Z2Qc_inj_1. by field.
Qed.

Lemma arange_covering (lo hi step : Qc) :
  0 < step → lo ≤ hi →
  ∃ ticks, np_arange lo (hi + step) step = Ok ticks ∧ covering_run lo hi step ticks.
Proof.
  intros Hstep Hle. pose proof (Qc_pos_neq_0 step Hstep) as Hne.
  unfold np_arange. rewrite decide_False by done. eexists. split; [done|].
  set (q := (hi + step - lo) / step).
  destruct (Qcceiling_bounds q) as [Hlo Hhi].
  apply (Qcmult_lt_mono_pos_l _ _ step Hstep) in Hlo.
  apply (Qcmult_le_mono_pos_l _ _ step Hstep) in Hhi.
  unfold q in Hlo at 2. unfold q in Hhi at 1.
  rewrite Qcmult_div_r in Hlo, Hhi by done.
  set (c := Qcceiling q) in *. clearbody c. clear q.
  replace (step * (Qc_of_Z c - 1)) with (step * Qc_of_Z c - step) in Hlo by ring.
  assert (0 < c)%Z as Hc.
  { apply Z2Qc_inj_lt. rewrite Z2Qc_inj_0.
    apply (Qcmult_lt_mono_pos_l _ _ step Hstep).
    set (p := step * Qc_of_Z c) in *. clearbody p. qc_lra. }
  exists (Z.to_nat (c - 1)).
  replace (Z.to_nat c) with (S (Z.to_nat (c - 1))) by lia. split; [done|].
  rewrite Z2Nat.id, Z2Qc_inj_sub, Z2Qc_inj_1 by lia.
  replace ((Qc_of_Z c - 1) * step) with (step * Qc_of_Z c - step) by ring.
  set (p := step * Qc_of_Z c) in *. clearbody p. split; qc_lra.
Qed.

Lemma linspace_evenly (lo hi : Qc) (n : Z) :
  (0 ≤ n)%Z →
  ∃ ticks, np_linspace lo hi n = Ok ticks ∧ evenly_spaced lo hi n ticks.
Proof.
  intros Hn. unfold np_linspace. rewrite decide_False by lia. case_decide as Hdiv.
  - eexists. split; [done|]. unfold evenly_spaced.
    split; [apply steps_from_length|].
    split; [intros k Hk; by apply steps_from_lookup|].
    replace (Z.to_nat n) with (S (Z.to_nat (n - 1))) by lia.
    split; [intros _; apply steps_from_head|].
    intros _. rewrite steps_from_last, Z2Nat.id by lia. f_equal.
    assert (Qc_of_Z (n - 1) ≠ 0).
    { rewrite <- Z2Qc_inj_0. intros ?%Z2Qc_inj. lia. }
    by field.
  - eexists. split; [done|]. unfold evenly_spaced.
    split; [apply length_replicate|].
    split.
    { intros k Hk. assert (k = 0%nat) as -> by lia.
      rewrite lookup_replicate_2 by done. f_equal.
      change (Z.of_nat 0) with 0%Z. rewrite Z2Qc_inj_0. ring. }
    split; [|lia].
    intros ?. by replace (Z.to_nat n) with 1%nat by lia.
Qed.

(** Two multiples of a positive step, in order, are a whole number of
    steps apart. *)
Lemma multiples_apart (m lo hi : Qc) :
  0 < m → multiple_of m lo → multiple_of m hi → lo ≤ hi →
  ∃ N : nat, lo + Qc_of_Z (Z.of_nat N) * m = hi.
Proof.
  intros Hm [k1 ->] [k2 ->] Hle.
  apply Qcmult_le_mono_pos_r, Z2Qc_inj_le in Hle; [|done].
  exists (Z.to_nat (k2 - k1)). rewrite Z2Nat.id by lia.
  rewrite Z2Qc_inj_sub. ring.
Qed.

Lemma buffered_run (m lo hi : Qc) :
  0 < m → lo ≤ hi →
  ∃ ticks, np_arange (round_down m lo) (round_up m hi + m) m = Ok ticks ∧
           inclusive_run (round_down m lo) (round_up m hi) m ticks.
Proof.
  intros Hm Hle. pose proof (Qc_pos_neq_0 m Hm) as Hne.
  destruct (round_down_bounds m Hm lo) as [_ Hlo].
  destruct (round_up_bounds m Hm hi) as [Hhi _].
  destruct (multiples_apart m (round_down m lo) (round_up m hi)) as [N HN];
    [done | by apply round_down_multiple | by apply round_up_multiple | |].
  { by repeat (etrans; [eassumption|]). }
  exists (steps_from (round_down m lo) m (S N)).
  split; [by apply arange_inclusive|]. by exists N.
Qed.

(** * Gridline layout: specified properties *)

Lemma add_gridlines_by_interval (view : tuple4 Qc) (spec : scalar_or_seq Qc)
    (n_ticks : option (scalar_or_seq Z)) (ix iy : Qc) (buffer_out : bool) :
  axis_item spec 0 = Ok ix → axis_item spec 1 = Ok iy →
  add_gridlines view (Some spec) n_ticks None None buffer_out
  = (ex ← (if buffer_out then _buffer_box view ix else Ok view);
     xmain ← np_arange (item0 ex) (item1 ex + ix) ix;
     ey ← (if buffer_out then _buffer_box ex iy else Ok ex);
     ymain ← np_arange (item2 ey) (item3 ey + iy) iy;
     Ok {| xlocs := xmain; ylocs := ymain;
           xticks := within (item0 view) (item1 view) xmain;
           yticks := within (item2 view) (item3 view) ymain |}).
Proof.
  intros Hx Hy. unfold add_gridlines. rewrite Hx, Hy. cbn.
  destruct buffer_out; cbn.
  - destruct (_buffer_box view ix) as [ex|]; cbn; [|done].
    destruct (np_arange _ _ ix); cbn; [|done].
    destruct (_buffer_box ex iy) as [ey|]; cbn; [|done].
    by destruct (np_arange _ _ iy).
  - destruct (np_arange _ _ ix); cbn; [|done].
    by destruct (np_arange _ _ iy).
Qed.

Lemma add_gridlines_by_count (view : tuple4 Qc) (spec : scalar_or_seq Z)
    (nx ny : Z) (buffer_out : bool) :
  axis_item spec 0 = Ok nx → axis_item spec 1 = Ok ny →
  add_gridlines view None (Some spec) None None buffer_out
  = (xmain ← np_linspace (item0 view) (item1 view) nx;
     ymain ← np_linspace (item2 view) (item3 view) ny;
     Ok {| xlocs := xmain; ylocs := ymain;
           xticks := within (item0 view) (item1 view) xmain;
           yticks := within (item2 view) (item3 view) ymain |}).
Proof.
  intros Hx Hy. unfold add_gridlines. rewrite Hx, Hy. cbn.
  destruct (np_linspace _ _ nx); cbn; [|done].
  by destruct (np_linspace _ _ ny).
Qed.

Lemma inclusive_run_head (lo hi step : Qc) (ticks : list Qc) :
  inclusive_run lo hi step ticks → head ticks = Some lo.
Proof. intros (N & -> & _). apply steps_from_head. Qed.




(** * Reasoning about calls *)

Lemma wp_run {A} (m : M A) (s : state) (Q : state → result A → Prop) :
  wp m s Q ↔ ∃ s' r, m s = (s', r) ∧ Q s' r.
Proof.
  unfold wp. split.
  - intros H. exists (m s).1, (m s).2. by destruct (m s).
  - by intros (s' & r & -> & H).
Qed.

Lemma wp_mono {A} (m : M A) (s : state) (Q Q' : state → result A → Prop) :
  wp m s Q → (∀ s' r, Q s' r → Q' s' r) → wp m s Q'.
Proof. unfold wp. auto. Qed.

Lemma wp_ret {A} (a : A) (s : state) Q : Q s (Ok a) → wp (mret a) s Q.
Proof. done. Qed.

Lemma wp_raise {A} (e : exn) (s : state) (Q : state → result A → Prop) :
  Q s (Raise e) → wp (raise e) s Q.
Proof. done. Qed.

Lemma wp_lift {A} (r : result A) (s : state) Q : Q s r → wp (lift r) s Q.
Proof. done. Qed.

Lemma wp_bind {A B} (m : M A) (f : A → M B) (s : state) Q :
  wp m s (λ s' r, match r with
                  | Ok a => wp (f a) s' Q
                  | Raise e => Q s' (Raise e)
                  end) →
  wp (m ≫= f) s Q.
Proof.
  unfold wp, mbind, M_bind, bindM. by destruct (m s) as [s' [a|e]].
Qed.

Lemma wp_emit (e : event) (s : state) Q :
  Q (State (heap s) (trace s ++ [e])) (Ok tt) → wp (emit e) s Q.
Proof. done. Qed.

Lemma wp_alloc (d : gmap string value) (s : state) Q :
  (∀ l, heap s !! l = None → Q (State (<[l := d]> (heap s)) (trace s)) (Ok l)) →
  wp (alloc d) s Q.
Proof.
  intros H. apply H. apply not_elem_of_dom, is_fresh.
Qed.

Lemma wp_load (l : positive) (s : state) Q :
  (∀ d, heap s !! l = Some d → Q s (Ok d)) →
  (heap s !! l = None → Q s (Raise DanglingReference)) →
  wp (load l) s Q.
Proof.
  intros Hsome Hnone. unfold wp, load. destruct (heap s !! l); cbn; auto.
Qed.

Lemma wp_store (l : positive) (k : string) (v : value) (s : state) Q :
  (∀ d, heap s !! l = Some d →
        Q (State (<[l := <[k := v]> d]> (heap s)) (trace s)) (Ok tt)) →
  (heap s !! l = None → Q s (Raise DanglingReference)) →
  wp (store l k v) s Q.
Proof.
  intros Hsome Hnone. unfold wp, store. destruct (heap s !! l); cbn; auto.
Qed.

Lemma wp_when (b : bool) (m : M unit) (s : state) Q :
  (b = true → wp m s Q) → (b = false → Q s (Ok tt)) → wp (when b m) s Q.
Proof. intros Ht Hf. destruct b; [by apply Ht | by apply Hf]. Qed.

(** Steps through a chain of calls to pure helpers. *)
Ltac wp_lifts :=
  repeat first
    [ apply wp_ret | apply wp_raise
    | apply wp_bind; apply wp_lift;
      match goal with |- match ?r with _ => _ end => destruct r end ].

(** Steps through code that only reads the store. *)
Ltac wp_walk :=
  repeat first
    [ apply wp_ret | apply wp_raise | apply wp_emit | apply wp_lift
    | apply wp_bind
    | apply wp_load; intros
    | apply wp_when; intros
    | match goal with
      | |- wp (match ?x with _ => _ end) _ _ => destruct x
      | |- match ?r with _ => _ end => destruct r
      end ].

(** * Layer renderer *)

Lemma resolve_region_calls (w : world) (img : positive) (region : value) (s : state) :
  wp (resolve_region w img region) s
     (λ s' _, heap s' = heap s ∧ ∃ q, trace s' = trace s ++ [EGetInfo q]).
Proof.
  unfold resolve_region. destruct (negb (is_None region)).
  - apply wp_bind, wp_emit. wp_lifts; cbn; eauto.
  - apply wp_bind, wp_emit. wp_lifts; cbn; eauto.
    apply wp_bind. case_decide; [apply wp_raise; cbn; eauto|apply wp_ret].
    wp_lifts; cbn; eauto.
Qed.

Lemma filling_store (s cur : state) (a : positive) (k : string) (v : value) Q :
  filling s a cur →
  (∀ cur', filling s a cur' → Q cur' (Ok tt)) →
  wp (store a k v) cur Q.
Proof.
  intros (Ht & Hframe & Ha & [d Hd]) HQ. apply wp_store; [|by rewrite Hd].
  intros d' Hd'. apply HQ. split_and!; cbn; [done| |done|by rewrite lookup_insert_eq].
  intros l dl Hl. rewrite lookup_insert_ne; [by apply Hframe|]. by intros ->; simplify_eq.
Qed.

Lemma filling_alloc (s cur : state) (a : positive) (d : gmap string value)
    (Q : state → result positive → Prop) :
  filling s a cur →
  (∀ s' a', trace s' = trace s →
            (∀ l dl, heap s !! l = Some dl → heap s' !! l = Some dl) →
            Q s' (Ok a')) →
  wp (alloc d) cur Q.
Proof.
  intros (Ht & Hframe & Ha & _) HQ. apply wp_alloc. intros a' Ha'.
  apply HQ; cbn; [done|]. intros l dl Hl.
  rewrite lookup_insert_ne; [by apply Hframe|].
  intros ->. apply Hframe in Hl. simplify_eq.
Qed.

Lemma filling_when_store (s cur : state) (a : positive) (b : bool) (k : string)
    (v : value) {B} (rest : M B) Q :
  filling s a cur →
  (∀ cur', filling s a cur' → wp rest cur' Q) →
  wp (when b (store a k v) ≫= λ _, rest) cur Q.
Proof.
  intros Hfill Hrest. apply wp_bind, wp_when; intros _.
  - apply (filling_store s cur a); [done|]. intros cur' Hcur'. by apply Hrest.
  - by apply Hrest.
Qed.

Lemma request_args_frame (w : world) (map_region : coords) (dims region : value)
    (cmap : option string) (vis_params : option positive) (s : state) :
  wp (request_args w map_region dims region cmap vis_params) s
     (λ s' r, trace s' = trace s ∧
              (∀ l d, heap s !! l = Some d → heap s' !! l = Some d) ∧
              (∀ l vis, vis_params = Some l → heap s !! l = Some vis →
                        cmap_given cmap = true → "palette" ∈ dom vis →
                        r = Raise palette_conflict)).
Proof.
  unfold request_args.
  apply wp_bind, wp_alloc. intros a Ha.
  apply (filling_when_store s _ a).
  { split_and!; cbn; [done| |done|by rewrite lookup_insert_eq].
    intros l d Hl. rewrite lookup_insert_ne; [done|]. by intros ->; simplify_eq. }
  intros cur1 Hfill1. apply (filling_when_store s _ a); [done|].
  clear cur1 Hfill1. intros cur Hfill.
  pose proof Hfill as (Ht & Hframe & _ & _).
  apply wp_bind. unfold dict_given. destruct vis_params as [l|].
  - apply wp_bind, wp_load.
    + intros vis Hvis. apply wp_ret. case_decide as Hdom.
      * apply wp_ret. split_and!; [done..|].
        intros l' vis' [= <-] Hl' _ Hpal. apply Hframe in Hl'. simplify_eq.
        rewrite Hdom in Hpal. by apply elem_of_empty in Hpal.
      * apply wp_bind.
        destruct (cmap_given cmap) eqn:Hcmap; cbn [andb];
          [case_bool_decide as Hpal|].
        -- by apply wp_raise.
        -- apply wp_bind, wp_lift. destruct (build_palette _ _ _) as [palette|e].
           ++ apply (filling_store s cur a); [done|]. intros cur' Hcur'.
              apply wp_bind, wp_load; [intros d _|by destruct Hcur' as (_ & _ & _ & [? ->])].
              apply (filling_alloc s cur' a); [done|]. intros s' a' Hs' Hf'.
              split_and!; [done..|].
              intros l' vis' [= <-] Hl' _ Hpal'. apply Hframe in Hl'. by simplify_eq.
           ++ split_and!; [done..|].
              intros l' vis' [= <-] Hl' _ Hpal'. apply Hframe in Hl'. by simplify_eq.
        -- apply wp_ret.
           apply wp_bind, wp_load; [intros d _|by destruct Hfill as (_ & _ & _ & [? ->])].
           apply (filling_alloc s cur a); [done|]. intros s' a' Hs' Hf'.
           split_and!; [done..|]. by intros.
    + intros Hnone. split_and!; [done..|].
      intros l' vis' [= <-] Hl' _ _. apply Hframe in Hl'. by simplify_eq.
  - apply wp_ret, wp_ret. split_and!; [done..|]. by intros.
Qed.

Lemma not_image_type (img_obj : value) :
  type_of img_obj ≠ TClass ImageClass →
  match img_obj with VObj ImageClass _ => False | _ => True end.
Proof. by destruct img_obj as [| | | | | | |[]]. Qed.

Lemma not_axes_type (ax : value) :
  type_of ax ∉ [TClass GeoAxesClass; TClass GeoAxesSubplotClass] →
  match ax with
  | VObj GeoAxesClass _ | VObj GeoAxesSubplotClass _ => False
  | _ => True
  end.
Proof.
  destruct ax as [| | | | | | |[]]; cbn; try done;
    rewrite !elem_of_cons, elem_of_nil; intuition congruence.
Qed.

Lemma axes_type (ax : value) :
  type_of ax ∈ [TClass GeoAxesClass; TClass GeoAxesSubplotClass] →
  ∃ a, ax = VObj GeoAxesClass a ∨ ax = VObj GeoAxesSubplotClass a.
Proof.
  destruct ax as [| | | | | | |[] a]; cbn; try (by eauto);
    rewrite !elem_of_cons, elem_of_nil; intuition congruence.
Qed.

(** A call with a wrong [dims] or axes type raises after the geometry query
    at most. *)
Lemma add_layer_type_errors (w : world) (ax img_obj dims region : value)
    (cmap : option string) (vis_params : option positive) (s : state) :
  type_of dims ∉ [TList; TTuple; TInt] ∨
  type_of ax ∉ [TClass GeoAxesClass; TClass GeoAxesSubplotClass] →
  wp (add_layer w ax img_obj dims region cmap vis_params) s
     (λ s' r, raises r ∧ heap s' = heap s ∧
              (trace s' = trace s ∨ ∃ q, trace s' = trace s ++ [EGetInfo q])).
Proof.
  intros Hbad. unfold add_layer, raises. apply wp_bind.
  destruct img_obj as [| | | | | | |[] img]; try (apply wp_raise; by eauto).
  apply wp_ret, wp_bind.
  eapply wp_mono; [apply resolve_region_calls|]. intros s1 r [Hheap Htrace].
  destruct r as [[map_region view_extent]|e]; [|by eauto].
  apply wp_bind, wp_when; [intros _; apply wp_raise; by eauto|].
  intros Hdims%bool_decide_eq_false. destruct Hbad as [Hbad|Hbad]; [done|].
  apply not_axes_type in Hbad. apply wp_bind.
  destruct ax as [| | | | | | |[] a]; try done; apply wp_raise; by eauto.
Qed.

Lemma resolve_placement_heap (w : world) (ax_id : positive) (loc : value)
    (kwargs : gmap string value) (s : state) :
  wp (resolve_placement w ax_id loc kwargs) s (λ s' _, heap s' = heap s).
Proof. unfold resolve_placement. wp_walk; done. Qed.

Lemma colorbar_colors_heap (w : world) (vis : gmap string value)
    (cmap : option string) (discrete : bool) (vmin vmax : value) (s : state) :
  wp (colorbar_colors w vis cmap discrete vmin vmax) s (λ s' _, heap s' = heap s).
Proof. unfold colorbar_colors. wp_walk; done. Qed.

Lemma colorbar_body_heap (w : world) (vis_params : option positive)
    (cmap : option string) (discrete : bool) (label : option string)
    (cax : value) (kwargs : gmap string value) (s : state) :
  wp (colorbar_body w vis_params cmap discrete label cax kwargs) s
     (λ s' _, heap s' = heap s).
Proof. unfold colorbar_body. wp_walk; done. Qed.

Lemma add_colorbar_heap (w : world) (ax : value) (vis_params : option positive)
    (loc : value) (cmap : option string) (discrete : bool)
    (label : option string) (kwargs : gmap string value) (s : state) :
  wp (add_colorbar w ax vis_params loc cmap discrete label kwargs) s
     (λ s' _, heap s' = heap s).
Proof.
  unfold add_colorbar. apply wp_bind.
  destruct ax as [| | | | | | |[] a]; try (by apply wp_raise).
  all: apply wp_ret, wp_bind.
  all: eapply wp_mono; [apply resolve_placement_heap|].
  all: intros s1 [[cax kw]|e] Hheap; [|done].
  all: eapply wp_mono; [apply colorbar_body_heap|].
  all: intros s2 r2 Hheap2; by rewrite Hheap2.
Qed.

Lemma add_layer_frame (w : world) (ax img_obj dims region : value)
    (cmap : option string) (vis_params : option positive) (s : state) :
  wp (add_layer w ax img_obj dims region cmap vis_params) s
     (λ s' _, ∀ l d, heap s !! l = Some d → heap s' !! l = Some d).
Proof.
  unfold add_layer. apply wp_bind.
  destruct img_obj as [| | | | | | |[] img]; try (by apply wp_raise).
  apply wp_ret, wp_bind.
  eapply wp_mono; [apply resolve_region_calls|]. intros s1 r [Hheap _].
  destruct r as [[map_region view_extent]|e]; [|by rewrite Hheap].
  apply wp_bind, wp_when; [intros _; apply wp_raise; by rewrite Hheap|intros _].
  apply wp_bind.
  destruct ax as [| | | | | | |[] a]; try (apply wp_raise; by rewrite Hheap).
  all: apply wp_ret, wp_bind.
  all: eapply wp_mono; [apply request_args_frame|]; intros s2 r (_ & Hframe & _).
  all: rewrite Hheap in Hframe.
  all: destruct r as [args|e]; [|done].
  all: wp_walk; cbn; auto.
Qed.

(** * Layer renderer: specified properties *)

(** C1, counterexample.  With a valid image, valid axes and [dims] a string
    the call raises the [dims] error, but only after the remote query for
    the bounds of the image has been issued. *)
Lemma add_layer_dims_checked_after_geometry_query :
  (type_of (VStr "1000") ∉ [TList; TTuple; TInt]) ∧
  add_layer stub_world an_axes an_image (VStr "1000") VNone None None (store_with ∅)
  = (State (heap (store_with ∅)) [EGetInfo (ImageBoundsInfo 7)], Raise bad_dims).
Proof.
  split; [|vm_compute; reflexivity].
  rewrite !elem_of_cons, elem_of_nil. cbn. intuition congruence.
Qed.

(** C1, as amended.  A wrong image-handle type makes [add_layer] raise
    before any remote call and any other effect.  A wrong [dims] or axes type
    makes it raise as well, with no dictionary changed and no thumbnail
    request, fetch or drawing issued, but these two checks come after the
    remote geometry query, which is then the only call that has been made;
    when that query succeeds the error raised is the one of [dims], or the
    one of the axes if [dims] is well typed. *)
Theorem add_layer_validation_order (w : world) (ax img_obj dims region : value)
    (cmap : option string) (vis_params : option positive) (s : state) :
  (type_of img_obj ≠ TClass ImageClass →
     add_layer w ax img_obj dims region cmap vis_params s = (s, Raise not_image)) ∧
  (type_of dims ∉ [TList; TTuple; TInt] ∨
   type_of ax ∉ [TClass GeoAxesClass; TClass GeoAxesSubplotClass] →
     ∃ s' e,
       add_layer w ax img_obj dims region cmap vis_params s = (s', Raise e) ∧
       heap s' = heap s ∧
       (trace s' = trace s ∨ ∃ q, trace s' = trace s ++ [EGetInfo q])) ∧
  (∀ img s1 found,
     img_obj = VObj ImageClass img →
     resolve_region w img region s = (s1, Ok found) →
     (type_of dims ∉ [TList; TTuple; TInt] →
        add_layer w ax img_obj dims region cmap vis_params s = (s1, Raise bad_dims)) ∧
     (type_of dims ∈ [TList; TTuple; TInt] →
      type_of ax ∉ [TClass GeoAxesClass; TClass GeoAxesSubplotClass] →
        add_layer w ax img_obj dims region cmap vis_params s = (s1, Raise bad_axes))).
Proof.
  split_and!.
  - intros Himg%not_image_type. unfold add_layer, mbind, M_bind, bindM.
    by destruct img_obj as [| | | | | | |[]].
  - intros Hbad.
    destruct (proj1 (wp_run _ _ _) (add_layer_type_errors w ax img_obj dims region
                                      cmap vis_params s Hbad))
      as (s' & r & Hrun & [e ->] & Hheap & Htrace).
    by exists s', e.
  - intros img s1 [map_region view_extent] -> Hres.
    unfold add_layer, mbind, M_bind, bindM. cbn. rewrite Hres. split.
    + intros Hdims. by rewrite bool_decide_eq_true_2.
    + intros Hdims Hax%not_axes_type. rewrite bool_decide_eq_false_2 by (by intros ?).
      cbn. by destruct ax as [| | | | | | |[]].
Qed.

Lemma add_layer_validation_order_witness :
  (type_of (VStr "1000") ∉ [TList; TTuple; TInt]) ∧
  ∃ s' e,
    add_layer stub_world an_axes an_image (VStr "1000") VNone None None (store_with ∅)
      = (s', Raise e) ∧
    heap s' = heap (store_with ∅) ∧
    (trace s' = trace (store_with ∅) ∨
     ∃ q, trace s' = trace (store_with ∅) ++ [EGetInfo q]).
Proof.
  assert (type_of (VStr "1000") ∉ [TList; TTuple; TInt]) as Hdims.
  { rewrite !elem_of_cons, elem_of_nil. simpl. intuition congruence. }
  split; [exact Hdims|].
  exact (proj1 (proj2 (add_layer_validation_order stub_world an_axes an_image
                         (VStr "1000") VNone None None (store_with ∅)))
               (or_introl Hdims)).
Defined.

Lemma add_layer_conflict_walk (w : world) (ax img_obj dims region : value)
    (cmap : option string) (l : positive) (vis : gmap string value) (s : state) :
  cmap_given cmap = true → heap s !! l = Some vis → "palette" ∈ dom vis →
  wp (add_layer w ax img_obj dims region cmap (Some l)) s
     (λ s' r,
        raises r ∧
        (trace s' = trace s ∨ ∃ q, trace s' = trace s ++ [EGetInfo q]) ∧
        (∀ img s1 found,
           img_obj = VObj ImageClass img →
           resolve_region w img region s = (s1, Ok found) →
           type_of dims ∈ [TList; TTuple; TInt] →
           type_of ax ∈ [TClass GeoAxesClass; TClass GeoAxesSubplotClass] →
           r = Raise palette_conflict)).
Proof.
  intros Hcmap Hvis Hpal. unfold add_layer, raises. apply wp_bind.
  destruct img_obj as [| | | | | | |[] img];
    try (apply wp_raise; split_and!; [by eauto|by left|by intros]).
  apply wp_ret, wp_bind.
  pose proof (resolve_region_calls w img region s) as Hcalls.
  unfold wp in Hcalls. unfold wp at 1.
  destruct (resolve_region w img region s) as [s1 r1] eqn:Hres.
  cbn [fst snd] in *. destruct Hcalls as [Hheap [q Htrace]].
  destruct r1 as [[map_region view_extent]|e].
  2: { split_and!; [by eauto|by eauto|]. intros ? ? ? [= <-] Hr.
       rewrite Hres in Hr. discriminate. }
  apply wp_bind, wp_when.
  { intros Hdims%bool_decide_eq_true. apply wp_raise.
    split_and!; [by eauto|by eauto|by intros]. }
  intros _. apply wp_bind.
  destruct ax as [| | | | | | |[] a];
    try (apply wp_raise; split_and!; [by eauto|by eauto|];
         intros ? ? ? _ _ _ [a' [?|?]]%axes_type; discriminate).
  all: apply wp_ret, wp_bind.
  all: eapply wp_mono; [apply request_args_frame|]; intros s2 r (Ht & _ & Hconf).
  all: rewrite (Hconf l vis) by (by rewrite ?Hheap).
  all: split_and!; [by eauto|right; rewrite Ht; by eauto|done].
Qed.

(** C9.  When a colour-map name is given ([if cmap] holds) and [vis_params]
    has a [palette] key, [add_layer] raises and neither asks for the
    thumbnail URL nor fetches it; the error raised is the configuration
    conflict whenever the image, [dims] and axes are well typed and the
    geometry query before it succeeded (otherwise one of those fails
    first). *)
Theorem add_layer_cmap_palette_conflict (w : world) (ax img_obj dims region : value)
    (cmap : option string) (l : positive) (vis : gmap string value) (s : state) :
  cmap_given cmap = true → heap s !! l = Some vis → "palette" ∈ dom vis →
  ∃ s' e,
    add_layer w ax img_obj dims region cmap (Some l) s = (s', Raise e) ∧
    (∃ evs, trace s' = trace s ++ evs ∧ Forall (λ ev, is_fetch ev = false) evs) ∧
    (∀ img s1 found,
       img_obj = VObj ImageClass img →
       resolve_region w img region s = (s1, Ok found) →
       type_of dims ∈ [TList; TTuple; TInt] →
       type_of ax ∈ [TClass GeoAxesClass; TClass GeoAxesSubplotClass] →
       e = palette_conflict).
Proof.
  intros Hcmap Hvis Hpal.
  destruct (proj1 (wp_run _ _ _)
              (add_layer_conflict_walk w ax img_obj dims region cmap l vis s
                 Hcmap Hvis Hpal))
    as (s' & r & Hrun & [e ->] & Htrace & Herr).
  exists s', e. split_and!; [done| |].
  - destruct Htrace as [Ht|[q Ht]].
    + exists []. by rewrite app_nil_r.
    + exists [EGetInfo q]. split; [done|]. by repeat constructor.
  - intros img s1 found Himg Hres Hdims Hax.
    specialize (Herr img s1 found Himg Hres Hdims Hax). by injection Herr.
Qed.

Lemma add_layer_cmap_palette_conflict_witness :
  ∃ s',
    add_layer stub_world an_axes an_image (VInt 1000) VNone (Some "viridis")
              (Some 1%positive) (store_with {[ "palette" := VStr "ff0000,00ff00" ]})
      = (s', Raise palette_conflict) ∧
    thumbnail_requests (trace s') = [].
Proof.
  assert (cmap_given (Some "viridis") = true) as Hcmap by reflexivity.
  assert (heap (store_with {[ "palette" := VStr "ff0000,00ff00" ]}) !! 1%positive
          = Some {[ "palette" := VStr "ff0000,00ff00" ]}) as Hvis by reflexivity.
  assert ("palette" ∈ dom ({[ "palette" := VStr "ff0000,00ff00" ]} : gmap string value))
    as Hpal by (apply (bool_decide_unpack _); vm_compute; exact I).
  destruct (add_layer_cmap_palette_conflict stub_world an_axes an_image (VInt 1000)
              VNone (Some "viridis") 1%positive _ _ Hcmap Hvis Hpal)
    as (s' & e & Hrun & _ & Herr).
  exists s'.
  assert (e = palette_conflict) as ->.
  { apply (Herr 7%positive
             (State (heap (store_with {[ "palette" := VStr "ff0000,00ff00" ]}))
                    [EGetInfo (ImageBoundsInfo 7)])
             (square, VList [VFloat 0; VFloat (Qc_of_Z 10); VFloat 0; VFloat (Qc_of_Z 10)])).
    - reflexivity.
    - vm_compute. reflexivity.
    - rewrite !elem_of_cons. auto.
    - rewrite !elem_of_cons. auto. }
  split; [exact Hrun|].
  revert Hrun. vm_compute. intros [= <-]. reflexivity.
Defined.

(** * Frame: the caller's dictionaries *)

(** C10.  Neither [add_layer] nor [add_colorbar] changes a dictionary the
    caller holds: every dictionary of the store before the call, the one
    passed as [vis_params] among them, has the same entries after it,
    whether the call returns or raises. *)
Theorem vis_params_not_mutated (w : world) (s : state) (l : positive)
    (d : gmap string value) :
  heap s !! l = Some d →
  (∀ ax img_obj dims region cmap vis_params,
     heap (add_layer w ax img_obj dims region cmap vis_params s).1 !! l = Some d) ∧
  (∀ ax vis_params loc cmap discrete label kwargs,
     heap (add_colorbar w ax vis_params loc cmap discrete label kwargs s).1 !! l = Some d).
Proof.
  intros Hl. split.
  - intros. by apply (add_layer_frame w ax img_obj dims region cmap vis_params s).
  - intros. pose proof (add_colorbar_heap w ax vis_params loc cmap discrete label kwargs s)
      as Hheap.
    unfold wp in Hheap. by rewrite Hheap.
Qed.

Lemma vis_params_not_mutated_witness :
  heap (add_layer stub_world an_axes an_image (VInt 1000) VNone (Some "viridis")
                  (Some 1%positive) (store_with {[ "min" := VInt 0 ]})).1 !! 1%positive
    = Some {[ "min" := VInt 0 ]} ∧
  heap (add_colorbar stub_world an_axes (Some 1%positive) (VStr "right") (Some "gray")
                     false None ∅ (store_with {[ "min" := VInt 0 ]})).1 !! 1%positive
    = Some {[ "min" := VInt 0 ]}.
Proof.
  assert (heap (store_with {[ "min" := VInt 0 ]}) !! 1%positive
          = Some {[ "min" := VInt 0 ]}) as Hl by reflexivity.
  destruct (vis_params_not_mutated stub_world _ _ _ Hl) as [Hlayer Hbar].
  split; [apply Hlayer | apply Hbar].
Defined.

(** * Colorbar composer: specified properties *)

Lemma colorbar_scalars_resolved (vis kwargs : gmap string value) (vmin vmax alpha : value) :
  colorbar_scalars vis kwargs = Ok (vmin, vmax, alpha) →
  vmin = default (VInt 0) (vis !! "min") ∧
  vmax = default (VInt 1) (vis !! "max") ∧
  alpha = match vis !! "opacity" with
          | Some a => a
          | None => default (VInt 1) (kwargs !! "alpha")
          end ∧
  is_scalar vmin = true ∧ is_scalar vmax = true ∧
  (is_Some (vis !! "opacity") → is_scalar alpha = true).
Proof.
  unfold colorbar_scalars.
  destruct (vis !! "min") as [v0|]; [destruct (is_scalar v0) eqn:H0|]; cbn; try done.
  all: destruct (vis !! "max") as [v1|]; [destruct (is_scalar v1) eqn:H1|]; cbn; try done.
  all: destruct (vis !! "opacity") as [v2|]; [destruct (is_scalar v2) eqn:H2|]; cbn; try done.
  all: try destruct (kwargs !! "alpha"); cbn.
  all: intros [= <- <- <-]; split_and!; try done; by intros [? [=]].
Qed.

Lemma colorbar_scalars_rejects (vis kwargs : gmap string value) (key : string) (v : value) :
  key ∈ ["min"; "max"; "opacity"] → vis !! key = Some v → is_scalar v = false →
  raises (colorbar_scalars vis kwargs).
Proof.
  rewrite !elem_of_cons, elem_of_nil. unfold colorbar_scalars, raises.
  intros [->|[->|[->|[]]]] Hv Hs.
  - rewrite Hv, Hs. by eauto.
  - destruct (vis !! "min") as [v0|]; [destruct (is_scalar v0)|]; cbn;
      rewrite ?Hv, ?Hs; by eauto.
  - destruct (vis !! "min") as [v0|]; [destruct (is_scalar v0)|]; cbn; try (by eauto).
    all: destruct (vis !! "max") as [v1|]; [destruct (is_scalar v1)|]; cbn;
      rewrite ?Hv, ?Hs; by eauto.
Qed.

(** C4, the defect.  With the empty dictionary as [vis_params] no default
    is applied and no colorbar is produced: the block that resolves [vmin],
    [vmax], [alpha] and the colours is skipped, and reading [norm] for the
    constructor raises.  With [alpha] passed as keyword argument (and
    [opacity] absent) the value is taken, but [alpha] then reaches the
    constructor twice and the call raises as well.  With a non-empty
    dictionary that has none of the keys the defaults 0, 1 and 1 are
    used. *)
Theorem add_colorbar_defaults_not_applied (w : world) :
  add_colorbar w an_axes (Some 1%positive) (VStr "right") (Some "gray") false None ∅
               (store_with ∅)
  = (State (heap (store_with ∅))
           [EAddAxes 3 (dec 88 100, dec 25 100, dec 2 100, dec 5 10);
            ESubplotsAdjust "right" (dec 85 100)],
     Raise (UnboundLocalError "norm")) ∧
  (add_colorbar stub_world an_axes (Some 1%positive) (VStr "right") (Some "gray") false
                None {[ "alpha" := VFloat (dec 5 10) ]}
                (store_with {[ "min" := VInt 0; "max" := VInt 10 ]})).2
  = Raise (TypeError "got multiple values for keyword argument alpha") ∧
  trace (add_colorbar stub_world an_axes (Some 1%positive) (VStr "right") (Some "gray")
                      false None ∅ (store_with {[ "bands" := VStr "B1" ]})).1
  = [EAddAxes 3 (dec 88 100, dec 25 100, dec 2 100, dec 5 10);
     ESubplotsAdjust "right" (dec 85 100);
     EColorbarBase (VObj (OtherClass "Axes") 4) (Normalize (VInt 0) (VInt 1)) (VInt 1)
                   (Registered "gray") ∅;
     ESetLabel (VStr "B1")].
Proof. split_and!; vm_compute; reflexivity. Qed.


Lemma snoc_then_app {A} (l : list A) (x : A) (k : list A) :
  l ++ x :: k = (l ++ [x]) ++ k.
Proof. by rewrite <- app_assoc. Qed.

Lemma resolve_placement_neither (w : world) (a : positive) (loc : value)
    (kwargs : gmap string value) (s : state) :
  truthy loc = false → kwargs !! "cax" = None →
  resolve_placement w a loc kwargs s = (s, Raise no_placement).
Proof. intros Hloc Hcax. unfold resolve_placement. by rewrite Hloc, Hcax. Qed.

Lemma resolve_placement_cax (w : world) (a : positive) (loc cax : value)
    (kwargs : gmap string value) (s : state) :
  truthy loc = false → kwargs !! "cax" = Some cax →
  resolve_placement w a loc kwargs s = (s, Ok (cax, delete "cax" kwargs)).
Proof. intros Hloc Hcax. unfold resolve_placement. by rewrite Hloc, Hcax. Qed.

Lemma resolve_placement_bad_loc (w : world) (a : positive) (loc : value)
    (kwargs : gmap string value) (s : state) :
  truthy loc = true →
  (∀ name, loc = VStr name → name ∉ ["left"; "right"; "bottom"; "top"]) →
  resolve_placement w a loc kwargs s = (s, Raise bad_loc).
Proof.
  intros Hloc Hname. unfold resolve_placement. rewrite Hloc.
  destruct loc as [| | | |name| | |]; try reflexivity.
  by rewrite bool_decide_eq_false_2 by (by apply Hname).
Qed.

Lemma resolve_placement_loc (w : world) (a : positive) (name : string)
    (kwargs : gmap string value) (s : state) :
  name ∈ ["left"; "right"; "bottom"; "top"] →
  ∃ rect evs,
    posOpts !! name = Some rect ∧
    resolve_placement w a (VStr name) kwargs s
    = (State (heap s) (trace s ++ EAddAxes a rect :: evs),
       Ok (figure_add_axes w a rect, kwargs)).
Proof.
  rewrite !elem_of_cons, elem_of_nil. intros [->|[->|[->|[->|[]]]]].
  - exists (dec 1 100, dec 25 100, dec 2 100, dec 5 10),
      [ESubplotsAdjust "left" (dec 18 100)].
    split; [reflexivity|]. rewrite (snoc_then_app (trace s)). vm_compute. reflexivity.
  - exists (dec 88 100, dec 25 100, dec 2 100, dec 5 10),
      [ESubplotsAdjust "right" (dec 85 100)].
    split; [reflexivity|]. rewrite (snoc_then_app (trace s)). vm_compute. reflexivity.
  - exists (dec 25 100, dec 15 100, dec 5 10, dec 2 100), [].
    split; [reflexivity|]. vm_compute. reflexivity.
  - exists (dec 25 100, dec 88 100, dec 5 10, dec 2 100), [].
    split; [reflexivity|]. vm_compute. reflexivity.
Qed.

Lemma add_colorbar_unfold (w : world) (a : positive) (ax : value)
    (vis_params : option positive) (loc : value) (cmap : option string)
    (discrete : bool) (label : option string) (kwargs : gmap string value)
    (s : state) :
  ax = VObj GeoAxesClass a ∨ ax = VObj GeoAxesSubplotClass a →
  add_colorbar w ax vis_params loc cmap discrete label kwargs s
  = match resolve_placement w a loc kwargs s with
    | (s', Ok (cax, kwargs')) =>
        colorbar_body w vis_params cmap discrete label cax kwargs' s'
    | (s', Raise e) => (s', Raise e)
    end.
Proof.
  intros [-> | ->]; unfold add_colorbar, mbind, M_bind, bindM;
    generalize (colorbar_body w vis_params cmap discrete label); intros body;
    cbn; by destruct (resolve_placement w a loc kwargs s) as [s' [[cax kw]|e]].
Qed.




(** * Palette injection *)

Lemma filling_store_content (s cur : state) (a : positive) (k : string) (v : value)
    (c : gmap string value) Q :
  filling s a cur → heap cur !! a = Some c →
  (∀ cur', filling s a cur' → heap cur' !! a = Some (<[k := v]> c) → Q cur' (Ok tt)) →
  wp (store a k v) cur Q.
Proof.
  intros (Ht & Hframe & Ha & _) Hc HQ. apply wp_store; [|by rewrite Hc].
  intros d' Hd'. assert (d' = c) as -> by congruence.
  apply HQ; [|by cbn; rewrite lookup_insert_eq].
  split_and!; cbn; [done| |done|by rewrite lookup_insert_eq].
  intros l dl Hl. rewrite lookup_insert_ne; [by apply Hframe|]. by intros ->; simplify_eq.
Qed.

Lemma filling_when_store_content (s cur : state) (a : positive) (b : bool)
    (k : string) (v : value) (c : gmap string value) {B} (rest : M B) Q :
  filling s a cur → heap cur !! a = Some c →
  (∀ cur', filling s a cur' →
           heap cur' !! a = Some (if b then <[k := v]> c else c) →
           wp rest cur' Q) →
  wp (when b (store a k v) ≫= λ _, rest) cur Q.
Proof.
  intros Hfill Hc Hrest. apply wp_bind, wp_when; intros ->.
  - apply (filling_store_content s cur a k v c); [done..|]. intros cur' ? ?.
    by apply Hrest.
  - by apply Hrest.
Qed.

(** The request dictionary built in the store is the one [merged_args]
    computes. *)
Lemma request_args_content (w : world) (map_region : coords) (dims region : value)
    (cmap : option string) (vis_params : option positive)
    (vis : option (gmap string value)) (s : state) :
  referred s vis_params vis →
  wp (request_args w map_region dims region cmap vis_params) s
     (λ s' r, trace s' = trace s ∧
              match r with
              | Ok a => ∃ d, heap s' !! a = Some d ∧
                             merged_args w map_region dims region cmap vis = Ok d
              | Raise e => merged_args w map_region dims region cmap vis = Raise e
              end).
Proof.
  intros Href. unfold request_args.
  apply wp_bind, wp_alloc. intros a Ha.
  apply (filling_when_store_content s _ a _ _ _ {[ "format" := VStr "png" ]}).
  { split_and!; cbn; [done| |done|by rewrite lookup_insert_eq].
    intros l d Hl. rewrite lookup_insert_ne; [done|]. by intros ->; simplify_eq. }
  { by cbn; rewrite lookup_insert_eq. }
  intros cur1 Hfill1 Hc1.
  apply (filling_when_store_content s _ a _ _ _ _ _ _ Hfill1 Hc1).
  clear cur1 Hfill1 Hc1. intros cur Hfill Hc.
  change (heap cur !! a = Some (base_args map_region dims region)) in Hc.
  pose proof Hfill as (Ht & Hframe & _ & _).
  unfold merged_args. apply wp_bind. unfold dict_given.
  destruct vis_params as [l|]; cbn in Href.
  - destruct Href as (d & Hl & ->). apply Hframe in Hl as Hl'.
    apply wp_bind, wp_load; [|by rewrite Hl'].
    intros d' Hd'. assert (d' = d) as -> by congruence.
    apply wp_ret. case_decide as Hdom.
    + apply wp_ret. split; [done|]. by exists (base_args map_region dims region).
    + apply wp_bind.
      destruct (cmap_given cmap) eqn:Hcmap; cbn [andb];
        [case_bool_decide as Hpal|].
      * by apply wp_raise.
      * apply wp_bind, wp_lift. destruct (build_palette _ _ _) as [palette|e]; [|done].
        apply (filling_store_content s cur a "palette" (VStr (join "," palette))
                 (base_args map_region dims region)); [done..|].
        intros cur' Hfill' Hc'.
        apply wp_bind, wp_load; [|by rewrite Hc'].
        intros c Hc''. assert (c = <["palette" := VStr (join "," palette)]>
                                     (base_args map_region dims region)) as ->
          by congruence.
        apply wp_alloc. intros a' Ha'. cbn.
        split; [by destruct Hfill' as (-> & _)|].
        eexists. by rewrite lookup_insert_eq.
      * apply wp_ret. apply wp_bind, wp_load; [|by rewrite Hc].
        intros c Hc''. assert (c = base_args map_region dims region) as -> by congruence.
        apply wp_alloc. intros a' Ha'. cbn. split; [done|].
        eexists. by rewrite lookup_insert_eq.
  - subst vis. apply wp_ret, wp_ret. split; [done|].
    by exists (base_args map_region dims region).
Qed.

Lemma thumbnail_requests_snoc (t : list event) (e : event) :
  thumbnail_requests (t ++ [e])
  = thumbnail_requests t
    ++ match e with EGetThumbUrl _ args => [args] | _ => [] end.
Proof. unfold thumbnail_requests. rewrite omap_app. by destruct e. Qed.

(** Once the arguments are well typed and the geometry query has answered,
    the thumbnail request carries exactly the dictionary of [merged_args];
    when [merged_args] raises, the call raises the same error and no
    request is made. *)
Lemma add_layer_request (w : world) (ax img_obj dims region : value)
    (cmap : option string) (vis_params : option positive)
    (vis : option (gmap string value)) (s s1 : state) (img a : positive)
    (map_region : coords) (view_extent : value) :
  img_obj = VObj ImageClass img →
  ax = VObj GeoAxesClass a ∨ ax = VObj GeoAxesSubplotClass a →
  type_of dims ∈ [TList; TTuple; TInt] →
  resolve_region w img region s = (s1, Ok (map_region, view_extent)) →
  referred s vis_params vis →
  wp (add_layer w ax img_obj dims region cmap vis_params) s
     (λ s' r,
        match merged_args w map_region dims region cmap vis with
        | Ok d => thumbnail_requests (trace s') = thumbnail_requests (trace s) ++ [d]
        | Raise e => r = Raise e ∧
                     thumbnail_requests (trace s') = thumbnail_requests (trace s)
        end).
Proof.
  intros -> Hax Hdims Hres Href. unfold add_layer.
  apply wp_bind, wp_ret, wp_bind.
  pose proof (resolve_region_calls w img region s) as Hcalls.
  unfold wp in Hcalls. unfold wp at 1. rewrite Hres in *. cbn [fst snd] in *.
  destruct Hcalls as [Hheap [q Htrace]].
  apply wp_bind, wp_when; [by intros ?%bool_decide_eq_true|intros _].
  assert (referred s1 vis_params vis) as Href1.
  { unfold referred in *. by rewrite Hheap. }
  assert (thumbnail_requests (trace s1) = thumbnail_requests (trace s)) as Hsame.
  { by rewrite Htrace, thumbnail_requests_snoc, app_nil_r. }
  apply wp_bind. destruct Hax as [-> | ->].
  all: apply wp_ret, wp_bind.
  all: eapply wp_mono; [by apply request_args_content|]; intros s2 r [Ht2 Hr].
  all: destruct r as [args|e]; [|by rewrite Hr, Ht2].
  all: destruct Hr as (d & Hd & ->).
  all: apply wp_bind, wp_load; [|by rewrite Hd].
  all: intros d' Hd'; assert (d' = d) as -> by congruence.
  all: wp_walk; cbn; by rewrite ?thumbnail_requests_snoc, ?app_nil_r, Ht2, Hsame.
Qed.

(** The palette reaches the request when [vis_params] is a non-empty
    dictionary without a [palette] key. *)
Lemma merged_args_palette (w : world) (map_region : coords) (dims region : value)
    (name : string) (vis : gmap string value) (palette : list string) :
  name ≠ "" → dom vis ≠ ∅ → "palette" ∉ dom vis →
  build_palette w name 256 = Ok palette →
  ∃ d, merged_args w map_region dims region (Some name) (Some vis) = Ok d ∧
       d !! "palette" = Some (VStr (join "," palette)).
Proof.
  intros Hname Hdom Hpal Hbuild. unfold merged_args.
  rewrite decide_False by done. cbn [cmap_given default from_option id].
  rewrite (bool_decide_eq_true_2 _ Hname), (bool_decide_eq_false_2 _ Hpal). cbn [andb].
  rewrite Hbuild. cbn. eexists. split; [done|].
  apply not_elem_of_dom in Hpal. by rewrite lookup_union_r, lookup_insert_eq.
Qed.

(** It does not when [vis_params] is [None] or empty, whatever the colour
    map. *)
Lemma merged_args_no_palette (w : world) (map_region : coords) (dims region : value)
    (cmap : option string) (vis : option (gmap string value)) :
  vis = None ∨ vis = Some ∅ →
  merged_args w map_region dims region cmap vis = Ok (base_args map_region dims region) ∧
  base_args map_region dims region !! "palette" = None.
Proof.
  intros Hvis. split.
  - unfold merged_args. destruct Hvis as [-> | ->]; [done|].
    by rewrite decide_True by apply dom_empty_L.
  - unfold base_args. destruct (truthy dims), (truthy region);
      by rewrite ?lookup_insert_ne, lookup_singleton_ne.
Qed.


(** For every world: the request of a well-typed call carries the palette
    of the colour map when [vis_params] is a non-empty dictionary without a
    [palette] key ... *)
Lemma add_layer_request_with_palette (w : world) (ax img_obj dims region : value)
    (name : string) (l : positive) (vis : gmap string value)
    (palette : list string) (s s1 : state) (img a : positive)
    (map_region : coords) (view_extent : value) :
  img_obj = VObj ImageClass img →
  ax = VObj GeoAxesClass a ∨ ax = VObj GeoAxesSubplotClass a →
  type_of dims ∈ [TList; TTuple; TInt] →
  resolve_region w img region s = (s1, Ok (map_region, view_extent)) →
  heap s !! l = Some vis → dom vis ≠ ∅ → "palette" ∉ dom vis →
  name ≠ "" → build_palette w name 256 = Ok palette →
  ∃ d,
    thumbnail_requests
      (trace (add_layer w ax img_obj dims region (Some name) (Some l) s).1)
    = thumbnail_requests (trace s) ++ [d] ∧
    d !! "palette" = Some (VStr (join "," palette)).
Proof.
  intros Himg Hax Hdims Hres Hl Hdom Hpal Hname Hbuild.
  pose proof (add_layer_request w ax img_obj dims region (Some name) (Some l)
                (Some vis) s s1 img a map_region view_extent Himg Hax Hdims Hres)
    as Hreq.
  destruct (merged_args_palette w map_region dims region name vis palette)
    as (d & Hd & Hlook); [done..|].
  unfold wp in Hreq. rewrite Hd in Hreq. exists d. split; [|done].
  apply Hreq. by exists vis.
Qed.

(** ... and no palette at all when [vis_params] is [None] or the empty
    dictionary. *)
Lemma add_layer_request_without_palette (w : world) (ax img_obj dims region : value)
    (cmap : option string) (vis_params : option positive) (s s1 : state)
    (img a : positive) (map_region : coords) (view_extent : value) :
  img_obj = VObj ImageClass img →
  ax = VObj GeoAxesClass a ∨ ax = VObj GeoAxesSubplotClass a →
  type_of dims ∈ [TList; TTuple; TInt] →
  resolve_region w img region s = (s1, Ok (map_region, view_extent)) →
  vis_params = None ∨ (∃ l, vis_params = Some l ∧ heap s !! l = Some ∅) →
  ∃ d,
    thumbnail_requests
      (trace (add_layer w ax img_obj dims region cmap vis_params s).1)
    = thumbnail_requests (trace s) ++ [d] ∧
    d !! "palette" = None.
Proof.
  intros Himg Hax Hdims Hres Hvis.
  set (vis := match vis_params with
              | Some _ => Some (∅ : gmap string value)
              | None => None
              end).
  assert (referred s vis_params vis) as Href.
  { destruct Hvis as [-> | (l & -> & Hl)]; [done|]. by exists ∅. }
  assert (vis = None ∨ vis = Some ∅) as Hcase.
  { destruct Hvis as [-> | (l & -> & Hl)]; by auto. }
  pose proof (add_layer_request w ax img_obj dims region cmap vis_params vis
                s s1 img a map_region view_extent Himg Hax Hdims Hres Href) as Hreq.
  destruct (merged_args_no_palette w map_region dims region cmap vis Hcase)
    as [Hd Hlook].
  unfold wp in Hreq. rewrite Hd in Hreq. by eexists.
Qed.

(** C2, the defect.  With a colour map given and [vis_params] the empty
    dictionary, or [None], the thumbnail request carries no [palette] entry:
    the colour map is ignored although the palette builder has a palette for
    it.  With a non-empty [vis_params] that has no [palette] key the entry is
    the comma-joined palette. *)
Theorem add_layer_cmap_ignored_without_vis_params :
  ∃ palette,
    build_palette stub_world "viridis" 256 = Ok palette ∧
    thumbnail_requests
      (trace (add_layer stub_world an_axes an_image (VInt 1000) VNone (Some "viridis")
                        (Some 1%positive) (store_with ∅)).1)
    = [{[ "format" := VStr "png"; "dimensions" := VInt 1000 ]}] ∧
    thumbnail_requests
      (trace (add_layer stub_world an_axes an_image (VInt 1000) VNone (Some "viridis")
                        None (store_with ∅)).1)
    = [{[ "format" := VStr "png"; "dimensions" := VInt 1000 ]}] ∧
    ({[ "format" := VStr "png"; "dimensions" := VInt 1000 ]} : gmap string value)
      !! "palette" = None ∧
    thumbnail_requests
      (trace (add_layer stub_world an_axes an_image (VInt 1000) VNone (Some "viridis")
                        (Some 1%positive) (store_with {[ "min" := VInt 0 ]})).1)
    = [{[ "format" := VStr "png"; "dimensions" := VInt 1000; "min" := VInt 0;
          "palette" := VStr (join "," palette) ]}].
Proof.
  eexists. split; [vm_compute; reflexivity|].
  split_and!; vm_compute; reflexivity.
Qed.

(** * View padding *)


(** X2.  With factors that are not negative and an extent whose bounds are
    in order, the limits [pad_view] sets contain the view; with a factor of
    zero they are the view. *)
Theorem pad_view_contains_view (x0 x1 y0 y1 xfactor yfactor : Qc) :
  x0 ≤ x1 → y0 ≤ y1 → 0 ≤ xfactor → 0 ≤ yfactor →
  ∃ lim,
    pad_view (x0, x1, y0, y1) (Seq [xfactor; yfactor]) = Ok lim ∧
    (xlim lim).1 ≤ x0 ∧ x1 ≤ (xlim lim).2 ∧
    (ylim lim).1 ≤ y0 ∧ y1 ≤ (ylim lim).2 ∧
    (xfactor = 0 → xlim lim = (x0, x1)) ∧
    (yfactor = 0 → ylim lim = (y0, y1)).
Proof.
  intros Hx Hy Hfx Hfy. eexists. split; [reflexivity|]. cbn.
  assert (0 ≤ (x1 - x0) * xfactor) as Hpx.
  { apply Qcmult_nonneg_nonneg; [|done]. qc_lra. }
  assert (0 ≤ (y1 - y0) * yfactor) as Hpy.
  { apply Qcmult_nonneg_nonneg; [|done]. qc_lra. }
  set (px := (x1 - x0) * xfactor) in *. set (py := (y1 - y0) * yfactor) in *.
  split_and!.
  - clearbody px py. qc_lra.
  - clearbody px py. qc_lra.
  - clearbody px py. qc_lra.
  - clearbody px py. qc_lra.
  - intros ->. unfold px. f_equal; ring.
  - intros ->. unfold py. f_equal; ring.
Qed.

Lemma pad_view_contains_view_witness :
  ∃ lim,
    pad_view (0, Qc_of_Z 10, 0, Qc_of_Z 20) (Seq [dec 1 10; dec 1 10]) = Ok lim ∧
    (xlim lim).1 ≤ 0 ∧ Qc_of_Z 10 ≤ (xlim lim).2.
Proof.
  assert (0 ≤ Qc_of_Z 10) as Hx by (apply (bool_decide_unpack _); vm_compute; exact I).
  assert (0 ≤ Qc_of_Z 20) as Hy by (apply (bool_decide_unpack _); vm_compute; exact I).
  assert (0 ≤ dec 1 10) as Hf by (apply (bool_decide_unpack _); vm_compute; exact I).
  destruct (pad_view_contains_view 0 (Qc_of_Z 10) 0 (Qc_of_Z 20) (dec 1 10) (dec 1 10)
              Hx Hy Hf Hf) as (lim & Hrun & Hlo & Hhi & _).
  exists lim. split; [exact Hrun|]. split; [exact Hlo | exact Hhi].
Defined.

(** X3.  A list as factor must have exactly two elements: any other length
    raises [ValueError] (the unpacking fails) and no limit is set. *)
Theorem pad_view_factor_list_of_two (view : tuple4 Qc) (l : list Qc) :
  (length l = 2%nat → ∃ lim, pad_view view (Seq l) = Ok lim) ∧
  (length l ≠ 2%nat → ∃ msg, pad_view view (Seq l) = Raise (ValueError msg)).
Proof.
  destruct l as [|a [|b [|c l]]]; cbn; split; intros H; try done; by eexists.
Qed.

Lemma pad_view_factor_list_of_two_witness :
  ∃ msg, pad_view (0, Qc_of_Z 10, 0, Qc_of_Z 20) (Seq [dec 1 10]) = Raise (ValueError msg).
Proof.
  assert (length [dec 1 10] ≠ 2%nat) as Hlen by (simpl; lia).
  exact (proj2 (pad_view_factor_list_of_two (0, Qc_of_Z 10, 0, Qc_of_Z 20) [dec 1 10]) Hlen).
Defined.

(** * More on [_buffer_box] *)

Lemma multiple_below_round_down (m x y : Qc) :
  0 < m → multiple_of m y → y ≤ x → y ≤ round_down m x.
Proof.
  intros Hm [k ->] Hle. pose proof (Qc_pos_neq_0 m Hm) as Hne.
  destruct (round_down_multiple m Hne x) as [j Hj].
  destruct (round_down_bounds m Hm x) as [Hlo _]. rewrite Hj in *.
  apply Qcmult_le_mono_pos_r; [done|]. apply (proj1 (Z2Qc_inj_le k j)).
  assert (k < j + 1)%Z; [|lia].
  apply (proj2 (Z2Qc_inj_lt k (j + 1))), (Qcmult_lt_mono_pos_r _ _ m Hm).
  rewrite Z2Qc_inj_add, Z2Qc_inj_1.
  replace ((Qc_of_Z j + 1) * m) with (Qc_of_Z j * m + m) by ring.
  set (p := Qc_of_Z k * m) in *. set (q := Qc_of_Z j * m) in *.
  clearbody p q. qc_lra.
Qed.

Lemma multiple_above_round_up (m x y : Qc) :
  0 < m → multiple_of m y → x ≤ y → round_up m x ≤ y.
Proof.
  intros Hm [k ->] Hle. pose proof (Qc_pos_neq_0 m Hm) as Hne.
  destruct (round_up_multiple m Hne x) as [j Hj].
  destruct (round_up_bounds m Hm x) as [_ Hhi]. rewrite Hj in *.
  apply Qcmult_le_mono_pos_r; [done|]. apply (proj1 (Z2Qc_inj_le j k)).
  assert (j < k + 1)%Z; [|lia].
  apply (proj2 (Z2Qc_inj_lt j (k + 1))), (Qcmult_lt_mono_pos_r _ _ m Hm).
  rewrite Z2Qc_inj_add, Z2Qc_inj_1.
  replace ((Qc_of_Z k + 1) * m) with (Qc_of_Z k * m + m) by ring.
  set (p := Qc_of_Z k * m) in *. set (q := Qc_of_Z j * m) in *.
  clearbody p q. qc_lra.
Qed.





Lemma py_rem_bounds_negative (m x : Qc) : m < 0 → m < py_rem x m ∧ py_rem x m ≤ 0.
Proof.
  intros Hm.
  assert (0 < - m) as Hpos by qc_lra.
  assert (m ≠ 0) as Hne by (intros ->; by apply (Qclt_not_eq 0 0)).
  destruct (Qcfloor_bounds (x / m)) as [Hlo Hhi].
  apply (Qcmult_le_mono_pos_l _ _ (- m) Hpos) in Hlo.
  apply (Qcmult_lt_mono_pos_l _ _ (- m) Hpos) in Hhi.
  replace (- m * (x / m)) with (- (m * (x / m))) in Hlo, Hhi by ring.
  rewrite Qcmult_div_r in Hlo, Hhi by done.
  replace (- m * Qc_of_Z (Qcfloor (x / m)))
    with (- (m * Qc_of_Z (Qcfloor (x / m)))) in Hlo by ring.
  replace (- m * (Qc_of_Z (Qcfloor (x / m)) + 1))
    with (- (m * Qc_of_Z (Qcfloor (x / m))) - m) in Hhi by ring.
  unfold py_rem. set (p := m * Qc_of_Z (Qcfloor (x / m))) in *.
  clearbody p. split; qc_lra.
Qed.



(** * More on [add_gridlines] *)

Lemma add_gridlines_ticks_filtered (view : tuple4 Qc)
    (interval : option (scalar_or_seq Qc)) (n_ticks : option (scalar_or_seq Z))
    (xs ys : option (list Qc)) (buffer_out : bool) (g : gridlines) :
  add_gridlines view interval n_ticks xs ys buffer_out = Ok g →
  xticks g = within (item0 view) (item1 view) (xlocs g) ∧
  yticks g = within (item2 view) (item3 view) (ylocs g).
Proof.
  unfold add_gridlines.
  set (X := match xs, interval, n_ticks with
            | Some _, _, _ => _ | None, Some _, _ => _
            | None, None, Some _ => _ | None, None, None => _ end).
  destruct X as [[xmain extent]|e]; [|done]. cbn.
  set (Y := match ys, interval, n_ticks with
            | Some _, _, _ => _ | None, Some _, _ => _
            | None, None, Some _ => _ | None, None, None => _ end).
  destruct Y as [[ymain extent']|e]; [|done]. cbn.
  by intros [= <-].
Qed.

(** X7.  Whatever way the coordinates were produced, the ticks that
    [add_gridlines] labels are exactly the gridline coordinates that lie
    inside the view extent (bounds included), in the same order; gridlines
    outside the view get no tick. *)
Theorem add_gridlines_ticks_inside_view (view : tuple4 Qc)
    (interval : option (scalar_or_seq Qc)) (n_ticks : option (scalar_or_seq Z))
    (xs ys : option (list Qc)) (buffer_out : bool) (g : gridlines) :
  add_gridlines view interval n_ticks xs ys buffer_out = Ok g →
  (∀ x, x ∈ xticks g ↔ x ∈ xlocs g ∧ item0 view ≤ x ∧ x ≤ item1 view) ∧
  (∀ y, y ∈ yticks g ↔ y ∈ ylocs g ∧ item2 view ≤ y ∧ y ≤ item3 view) ∧
  xticks g `sublist_of` xlocs g ∧ yticks g `sublist_of` ylocs g.
Proof.
  intros [-> ->]%add_gridlines_ticks_filtered. unfold within.
  split_and!.
  - intros x. rewrite list_elem_of_filter. tauto.
  - intros y. rewrite list_elem_of_filter. tauto.
  - apply sublist_filter.
  - apply sublist_filter.
Qed.

Lemma add_gridlines_ticks_inside_view_witness :
  [Qc_of_Z 4; Qc_of_Z 6] `sublist_of` [0; 2; Qc_of_Z 4; Qc_of_Z 6; Qc_of_Z 8; Qc_of_Z 10] ∧
  (Qc_of_Z 4 ∈ [Qc_of_Z 4; Qc_of_Z 6]
   ↔ Qc_of_Z 4 ∈ [0; 2; Qc_of_Z 4; Qc_of_Z 6; Qc_of_Z 8; Qc_of_Z 10]
     ∧ Qc_of_Z 3 ≤ Qc_of_Z 4 ∧ Qc_of_Z 4 ≤ Qc_of_Z 7).
Proof.
  assert (add_gridlines (0, Qc_of_Z 10, Qc_of_Z 3, Qc_of_Z 7)
            (Some (Seq [Qc_of_Z 5; 2])) None None None true
          = Ok {| xlocs := [0; Qc_of_Z 5; Qc_of_Z 10];
                  ylocs := [0; 2; Qc_of_Z 4; Qc_of_Z 6; Qc_of_Z 8; Qc_of_Z 10];
                  xticks := [0; Qc_of_Z 5; Qc_of_Z 10];
                  yticks := [Qc_of_Z 4; Qc_of_Z 6] |}) as Hrun
    by (apply (bool_decide_unpack _); vm_compute; exact I).
  split.
  - exact (proj2 (proj2 (proj2 (add_gridlines_ticks_inside_view _ _ _ _ _ _ _ Hrun)))).
  - exact (proj1 (proj2 (add_gridlines_ticks_inside_view _ _ _ _ _ _ _ Hrun)) (Qc_of_Z 4)).
Defined.


Lemma np_arange_nonzero (start stop step : Qc) :
  step ≠ 0 → ∃ ticks, np_arange start stop step = Ok ticks.
Proof. intros Hne. unfold np_arange. rewrite decide_False by done. by eexists. Qed.

(** X9.  Degenerate tick requests fail instead of drawing: an interval of
    zero raises [ZeroDivisionError], with or without buffering; an interval
    list without a second element raises [IndexError] when the y ticks are
    due, an empty one at once; a negative [n_ticks] raises [ValueError]. *)
Theorem add_gridlines_degenerate_requests (view : tuple4 Qc)
    (n_ticks : option (scalar_or_seq Z)) (ys : option (list Qc)) (buffer_out : bool) :
  add_gridlines view (Some (Scalar 0)) n_ticks None ys buffer_out
    = Raise ZeroDivisionError ∧
  add_gridlines view (Some (Seq [])) n_ticks None ys buffer_out = Raise IndexError ∧
  (∀ ix, ix ≠ 0 →
     add_gridlines view (Some (Seq [ix])) n_ticks None None buffer_out = Raise IndexError) ∧
  (∀ n, (n < 0)%Z →
     ∃ msg, add_gridlines view None (Some (Scalar n)) None ys buffer_out
            = Raise (ValueError msg)).
Proof.
  split_and!.
  - unfold add_gridlines. cbn. destruct buffer_out; cbn.
    + by rewrite buffer_box_zero.
    + unfold np_arange. by rewrite decide_True.
  - done.
  - intros ix Hix. unfold add_gridlines. cbn.
    destruct buffer_out; cbn.
    + destruct (buffer_box_total ix Hix view) as [ex ->]. cbn.
      by destruct (np_arange_nonzero (item0 ex) (item1 ex + ix) ix Hix) as [ticks ->].
    + by destruct (np_arange_nonzero (item0 view) (item1 view + ix) ix Hix) as [ticks ->].
  - intros n Hn. unfold add_gridlines. cbn. unfold np_linspace.
    rewrite decide_True by done. cbn. by eexists.
Qed.

Lemma add_gridlines_degenerate_requests_witness :
  add_gridlines (0, Qc_of_Z 10, 0, Qc_of_Z 10) (Some (Seq [2])) None None None true
  = Raise IndexError.
Proof.
  assert ((2 : Qc) ≠ 0) as Hne by (apply (bool_decide_unpack _); vm_compute; exact I).
  exact (proj1 (proj2 (proj2 (add_gridlines_degenerate_requests
                                (0, Qc_of_Z 10, 0, Qc_of_Z 10) None None true))) 2 Hne).
Defined.

Lemma add_gridlines_y_by_interval (view : tuple4 Qc) (spec : scalar_or_seq Qc)
    (n_ticks : option (scalar_or_seq Z)) (xs : list Qc) (iy : Qc) (buffer_out : bool) :
  axis_item spec 1 = Ok iy →
  add_gridlines view (Some spec) n_ticks (Some xs) None buffer_out
  = (ey ← (if buffer_out then _buffer_box view iy else Ok view);
     ymain ← np_arange (item2 ey) (item3 ey + iy) iy;
     Ok {| xlocs := xs; ylocs := ymain;
           xticks := within (item0 view) (item1 view) xs;
           yticks := within (item2 view) (item3 view) ymain |}).
Proof.
  intros Hy. unfold add_gridlines. cbn. rewrite Hy. cbn.
  destruct buffer_out; cbn.
  - destruct (_buffer_box view iy) as [ey|]; cbn; [|done].
    by destruct (np_arange _ _ iy).
  - by destruct (np_arange _ _ iy).
Qed.



Lemma inclusive_run_multiples (lo hi step : Qc) (ticks : list Qc) :
  multiple_of step lo → inclusive_run lo hi step ticks →
  Forall (multiple_of step) ticks.
Proof.
  intros [j ->] (N & -> & _). unfold steps_from. apply Forall_fmap, Forall_forall.
  intros k _. exists (j + Z.of_nat k)%Z. cbn. rewrite Z2Qc_inj_add. ring.
Qed.

Lemma inclusive_run_ends (lo hi step : Qc) (ticks : list Qc) :
  inclusive_run lo hi step ticks → head ticks = Some lo ∧ last ticks = Some hi.
Proof.
  intros (N & -> & <-). split; [apply steps_from_head | apply steps_from_last].
Qed.



(** * Palette builder *)

(** X12.  For a registered colour map and [n >= 0], [build_palette] returns
    exactly [n] hex codes, the [k]-th one sampled at [k / (n - 1)]: the
    first at 0 and, from two codes on, the last at 1.  An unknown colour map
    raises what the registry raises, and a negative [n] raises
    [ValueError]. *)
Theorem build_palette_samples (w : world) (cmap : string) (n : Z) :
  (∀ colormap, cm_get_cmap w cmap n = Ok colormap → (0 ≤ n)%Z →
     ∃ palette,
       build_palette w cmap n = Ok palette ∧
       length palette = Z.to_nat n ∧
       (∀ k : nat, (k < Z.to_nat n)%nat →
          palette !! k
          = Some (rgb2hex w (take 3 (colormap (0 + Qc_of_Z (Z.of_nat k)
                                                * ((1 - 0) / Qc_of_Z (n - 1))))))) ∧
       ((1 ≤ n)%Z → head palette = Some (rgb2hex w (take 3 (colormap 0)))) ∧
       ((2 ≤ n)%Z → last palette = Some (rgb2hex w (take 3 (colormap 1))))) ∧
  (∀ e, cm_get_cmap w cmap n = Raise e → build_palette w cmap n = Raise e) ∧
  (∀ colormap, cm_get_cmap w cmap n = Ok colormap → (n < 0)%Z →
     ∃ msg, build_palette w cmap n = Raise (ValueError msg)).
Proof.
  split_and!.
  - intros colormap Hcm Hn. unfold build_palette. rewrite Hcm. cbn.
    destruct (linspace_evenly 0 1 n Hn) as (vals & -> & Hlen & Hk & Hhead & Hlast).
    cbn. eexists. split; [done|].
    split; [by rewrite length_map|].
    split; [intros k Hlt; by rewrite list_lookup_fmap, Hk|].
    split.
    + intros H1. by rewrite head_lookup, list_lookup_fmap, <- head_lookup, Hhead.
    + intros H2. by rewrite fmap_last, Hlast.
  - intros e He. unfold build_palette. by rewrite He.
  - intros colormap Hcm Hn. unfold build_palette, np_linspace. rewrite Hcm. cbn.
    rewrite decide_True by done. by eexists.
Qed.

Lemma build_palette_samples_witness :
  ∃ palette, build_palette stub_world "viridis" 256 = Ok palette ∧
             length palette = 256%nat.
Proof.
  assert (0 ≤ 256)%Z as Hn by lia.
  destruct (proj1 (build_palette_samples stub_world "viridis" 256) _ eq_refl Hn)
    as (palette & Hrun & Hlen & _).
  exists palette. split; [exact Hrun | exact Hlen].
Defined.

(** * Dependency check *)

Lemma try_install_conda (conda : string → gset string → gset string * string)
    (m : machine) (dependency : string) :
  conda_meta (try_install conda m dependency) = conda_meta m.
Proof.
  unfold try_install. case_decide; [done|]. by destruct (conda dependency (modules m)).
Qed.

Lemma try_install_importable (conda : string → gset string → gset string * string)
    (m : machine) (dependency : string) :
  dependency ∈ modules m → try_install conda m dependency = m.
Proof. intros H. unfold try_install. by rewrite decide_True. Qed.

(** X13.  Without a [conda-meta] directory [check_dependencies] raises at
    once, with nothing imported, logged or run, even when every dependency
    can already be imported.  With one, and every dependency importable,
    it returns without running any command. *)
Theorem check_dependencies_conda_first
    (conda : string → gset string → gset string * string) (m : machine) :
  (conda_meta m = false → check_dependencies conda m = (m, Raised no_conda)) ∧
  (conda_meta m = true → (∀ dependency, dependency ∈ dependencies → dependency ∈ modules m) →
     ∃ m', check_dependencies conda m = (m', Returned) ∧
           modules m' = modules m ∧
           shell m' = shell m
                      ++ [LoggedInfo "All dependencies are successfully imported/installed!"]).
Proof.
  split.
  - intros Hc. unfold check_dependencies. by rewrite Hc.
  - intros Hc Hall. unfold check_dependencies. rewrite Hc. cbn [negb].
    assert (foldl (try_install conda) m dependencies = m) as ->.
    { unfold dependencies. cbn [foldl].
      rewrite (try_install_importable conda m "cartopy"),
        (try_install_importable conda m "pillow"),
        (try_install_importable conda m "scipy");
        [done|apply Hall; unfold dependencies; rewrite !elem_of_cons; auto..]. }
    assert (filter (λ dependency, dependency ∉ modules m) dependencies = []) as ->.
    { unfold dependencies.
      rewrite !filter_cons_False, filter_nil; [done|..];
        intros Hnot; apply Hnot, Hall; unfold dependencies;
        rewrite !elem_of_cons; auto. }
    cbn. by eexists.
Qed.

Lemma check_dependencies_conda_first_witness :
  check_dependencies (λ _ found, (found, "")) (Machine false ∅ [])
  = (Machine false ∅ [], Raised no_conda).
Proof.
  exact (proj1 (check_dependencies_conda_first (λ _ found, (found, "")) (Machine false ∅ []))
               eq_refl).
Defined.

Lemma try_install_commands (conda : string → gset string → gset string * string)
    (m : machine) (dependency : string) :
  commands_run (shell (try_install conda m dependency))
  = commands_run (shell m)
    ++ (if decide (dependency ∈ modules m) then [] else [install_command dependency]).
Proof.
  unfold try_install. case_decide; [by rewrite app_nil_r|].
  destruct (conda dependency (modules m)) as [found out]. cbn [shell].
  unfold commands_run. by rewrite omap_app.
Qed.

(** X14.  With conda present, [check_dependencies] runs at most one install
    command per dependency, in the order cartopy, pillow, scipy (the
    commands run are a sublist of the three install commands), and none for
    cartopy when it can be imported at the start.  It returns exactly when
    all three can be imported afterwards; otherwise it raises, naming the
    ones that still cannot, in that order, separated by commas. *)
Theorem check_dependencies_outcome
    (conda : string → gset string → gset string * string) (m : machine) :
  conda_meta m = true →
  ∃ m' r cmds,
    check_dependencies conda m = (m', r) ∧
    (r = Returned ↔ ∀ dependency, dependency ∈ dependencies → dependency ∈ modules m') ∧
    (∀ msg, r = Raised msg →
       msg = install_failed (filter (λ dependency, dependency ∉ modules m') dependencies)) ∧
    commands_run (shell m') = commands_run (shell m) ++ cmds ∧
    cmds `sublist_of` (install_command <$> dependencies) ∧
    (("cartopy" ∈ modules m) → install_command "cartopy" ∉ cmds).
Proof.
  intros Hc. unfold check_dependencies. rewrite Hc. cbn [negb].
  set (m1 := try_install conda m "cartopy").
  set (m2 := try_install conda m1 "pillow").
  set (m3 := try_install conda m2 "scipy").
  change (foldl (try_install conda) m dependencies) with m3.
  set (c1 := if decide ("cartopy" ∈ modules m) then [] else [install_command "cartopy"]).
  set (c2 := if decide ("pillow" ∈ modules m1) then [] else [install_command "pillow"]).
  set (c3 := if decide ("scipy" ∈ modules m2) then [] else [install_command "scipy"]).
  assert (commands_run (shell m3) = commands_run (shell m) ++ (c1 ++ c2 ++ c3)) as Hcmds.
  { unfold m3, m2, m1. rewrite !try_install_commands. by rewrite <- !app_assoc. }
  assert ((c1 ++ c2 ++ c3) `sublist_of` (install_command <$> dependencies)) as Hsub.
  { change (install_command <$> dependencies)
      with ([install_command "cartopy"] ++ [install_command "pillow"]
            ++ [install_command "scipy"]).
    repeat apply sublist_app; unfold c1, c2, c3; case_decide;
      (apply sublist_nil_l || done). }
  assert ("cartopy" ∈ modules m → install_command "cartopy" ∉ c1 ++ c2 ++ c3) as Hcart.
  { intros Hin. unfold c1. rewrite decide_True by done. cbn [app].
    unfold c2, c3. repeat case_decide; cbn;
      rewrite ?elem_of_cons, ?elem_of_nil; unfold install_command;
      intros Hel; repeat destruct Hel as [Hel|Hel]; try done; discriminate. }
  set (failed := filter (λ dependency, dependency ∉ modules m3) dependencies).
  case_decide as Hlen.
  - exists m3, (Raised (install_failed failed)), (c1 ++ c2 ++ c3).
    split; [done|]. split_and!; [|by intros ? [= <-]|done..].
    split; [done|]. intros Hall. exfalso.
    assert (failed = []) as Hnil.
    { unfold failed, dependencies.
      rewrite !filter_cons_False, filter_nil; [done|..];
        intros Hnot; apply Hnot, Hall; unfold dependencies;
        rewrite !elem_of_cons; auto. }
    rewrite Hnil in Hlen. cbn in Hlen. lia.
  - eexists _, Returned, (c1 ++ c2 ++ c3). split; [done|]. cbn [modules shell].
    split_and!; [|done| |done..].
    + split; [|done]. intros _ dep Hdep.
      assert (failed = []) as Hnil by (destruct failed; [done|cbn in Hlen; lia]).
      destruct (decide (dep ∈ modules m3)) as [|Hnot]; [done|].
      by destruct (filter_nil_not_elem_of _ _ dep Hnil Hnot).
    + unfold commands_run in *. by rewrite omap_app, Hcmds, app_nil_r.
Qed.

Lemma check_dependencies_outcome_witness :
  ∃ m' r cmds,
    check_dependencies (λ dep found, ({[dep]} ∪ found, "done")) (Machine true {["scipy"]} [])
      = (m', r) ∧
    commands_run (shell m') = commands_run [] ++ cmds ∧
    cmds `sublist_of` (install_command <$> dependencies).
Proof.
  destruct (check_dependencies_outcome (λ dep found, ({[dep]} ∪ found, "done"))
              (Machine true {["scipy"]} []) eq_refl)
    as (m' & r & cmds & Hrun & _ & _ & Hcmds & Hsub & _).
  exists m', r, cmds. split; [exact Hrun|]. split; [exact Hcmds | exact Hsub].
Defined.

(** * Layer renderer: fetching and drawing *)

Lemma add_layer_unfold (w : world) (ax dims region : value) (cmap : option string)
    (vis_params : option positive) (img a : positive) (s : state) :
  ax = VObj GeoAxesClass a ∨ ax = VObj GeoAxesSubplotClass a →
  type_of dims ∈ [TList; TTuple; TInt] →
  add_layer w ax (VObj ImageClass img) dims region cmap vis_params s
  = match resolve_region w img region s with
    | (s1, Ok (map_region, view_extent)) =>
        match request_args w map_region dims region cmap vis_params s1 with
        | (s2, Ok args) =>
            match heap s2 !! args with
            | Some d => fetch_and_draw w img a view_extent d s2
            | None => (s2, Raise DanglingReference)
            end
        | (s2, Raise e) => (s2, Raise e)
        end
    | (s1, Raise e) => (s1, Raise e)
    end.
Proof.
  intros Hax Hdims. unfold add_layer, fetch_and_draw.
  rewrite (bool_decide_eq_false_2 (type_of dims ∉ _)) by (by intros ?).
  unfold mbind, M_bind, bindM, mret, M_ret, retM, when. cbn.
  destruct (resolve_region w img region s) as [s1 [[map_region view_extent]|e]]; [|done].
  destruct Hax as [-> | ->].
  all: destruct (request_args w map_region dims region cmap vis_params s1)
         as [s2 [args|e]]; [|done].
  all: unfold load; by destruct (heap s2 !! args).
Qed.

Lemma fetch_and_draw_outcome (w : world) (img a : positive) (view_extent : value)
    (d : gmap string value) (s : state) :
  wp (fetch_and_draw w img a view_extent d) s
     (λ s' r,
        heap s' = heap s ∧
        match get_thumb_url w img d with
        | Raise e => r = Raise e ∧ trace s' = trace s ++ [EGetThumbUrl img d]
        | Ok url =>
            match requests_get w url with
            | Raise e =>
                r = Raise e ∧ trace s' = trace s ++ [EGetThumbUrl img d; ERequestsGet url]
            | Ok (status_code, content) =>
                if decide (status_code = 200%Z) then
                  match image_open w content with
                  | Ok image =>
                      r = Ok tt ∧
                      trace s' = trace s ++
                        [EGetThumbUrl img d; ERequestsGet url;
                         EImshow a (if decide (last_dim image = 2%nat)
                                    then expand_gray_alpha image else image)
                                 view_extent]
                  | Raise e =>
                      r = Raise e ∧
                      trace s' = trace s ++ [EGetThumbUrl img d; ERequestsGet url]
                  end
                else
                  r = match error_message w content with
                      | Ok error => Raise (HTTPError error)
                      | Raise e => Raise e
                      end ∧
                  trace s' = trace s ++ [EGetThumbUrl img d; ERequestsGet url]
            end
        end).
Proof.
  unfold fetch_and_draw.
  apply wp_bind, wp_emit, wp_bind, wp_lift.
  destruct (get_thumb_url w img d) as [url|e]; [|done].
  apply wp_bind, wp_emit, wp_bind, wp_lift. cbn [heap trace].
  rewrite <- app_assoc. cbn [app].
  destruct (requests_get w url) as [[status_code content]|e]; [|done].
  destruct (decide (status_code = 200%Z)) as [Heq|Hne].
  - rewrite (bool_decide_eq_false_2 (status_code ≠ 200%Z)) by (by intros ?).
    apply wp_bind, wp_ret, wp_bind, wp_lift.
    destruct (image_open w content) as [image|e]; [|done].
    apply wp_emit. cbn [heap trace]. by rewrite <- app_assoc.
  - rewrite (bool_decide_eq_true_2 (status_code ≠ 200%Z)) by done.
    apply wp_bind, wp_bind, wp_lift.
    destruct (error_message w content); [by apply wp_raise|done].
Qed.

(** What a call of [add_layer] leaves in the trace: calls that draw nothing,
    followed on return by the one drawing, of the extent that
    [resolve_region] worked out. *)
Lemma add_layer_drawing (w : world) (ax img_obj dims region : value)
    (cmap : option string) (vis_params : option positive) (s : state) :
  wp (add_layer w ax img_obj dims region cmap vis_params) s
     (λ s' r, ∃ t, Forall (λ e, is_imshow e = false) t ∧
        match r with
        | Ok _ => ∃ img a image s1 map_region view_extent,
            img_obj = VObj ImageClass img ∧
            (ax = VObj GeoAxesClass a ∨ ax = VObj GeoAxesSubplotClass a) ∧
            resolve_region w img region s = (s1, Ok (map_region, view_extent)) ∧
            trace s' = trace s ++ t ++ [EImshow a image view_extent]
        | Raise _ => trace s' = trace s ++ t
        end).
Proof.
  destruct (decide (type_of dims ∈ [TList; TTuple; TInt])) as [Hdims|Hdims];
    [destruct (decide (type_of ax ∈ [TClass GeoAxesClass; TClass GeoAxesSubplotClass]))
       as [Hax|Hax]|].
  2,3: eapply wp_mono; [apply add_layer_type_errors; by eauto|];
       intros s' r ([e ->] & _ & [Ht|[q Ht]]);
       [exists []; by rewrite app_nil_r
       |exists [EGetInfo q]; split; [by repeat constructor|done]].
  destruct img_obj as [| | | | | | |[] img];
    try (unfold add_layer; apply wp_bind, wp_raise; exists []; by rewrite app_nil_r).
  apply axes_type in Hax as [a Hax]. unfold wp.
  rewrite (add_layer_unfold w ax dims region cmap vis_params img a) by done.
  pose proof (resolve_region_calls w img region s) as Hres. unfold wp in Hres.
  destruct (resolve_region w img region s) as [s1 [[map_region view_extent]|e]] eqn:Hrun;
    cbn [fst snd] in *; destruct Hres as [_ [q Ht1]];
    [|exists [EGetInfo q]; split; [by repeat constructor|done]].
  pose proof (request_args_frame w map_region dims region cmap vis_params s1) as Hreq.
  unfold wp in Hreq.
  destruct (request_args w map_region dims region cmap vis_params s1) as [s2 [args|e]];
    cbn [fst snd] in *; destruct Hreq as (Ht2 & _ & _); rewrite Ht1 in Ht2;
    [|exists [EGetInfo q]; split; [by repeat constructor|done]].
  destruct (heap s2 !! args) as [d|];
    [|exists [EGetInfo q]; split; [by repeat constructor|done]].
  pose proof (fetch_and_draw_outcome w img a view_extent d s2) as Hf. unfold wp in Hf.
  destruct (fetch_and_draw w img a view_extent d s2) as [s3 r]. cbn [fst snd] in *.
  destruct Hf as [_ Hf].
  destruct (get_thumb_url w img d) as [url|e].
  2: { destruct Hf as [-> ->]. exists [EGetInfo q; EGetThumbUrl img d].
       split; [by repeat constructor|by rewrite Ht2, <- app_assoc]. }
  destruct (requests_get w url) as [[status_code content]|e].
  2: { destruct Hf as [-> ->]. exists [EGetInfo q; EGetThumbUrl img d; ERequestsGet url].
       split; [by repeat constructor|by rewrite Ht2, <- app_assoc]. }
  exists [EGetInfo q; EGetThumbUrl img d; ERequestsGet url].
  split; [by repeat constructor|].
  case_decide.
  - destruct (image_open w content) as [image|e]; destruct Hf as [-> ->];
      [|by rewrite Ht2, <- app_assoc].
    eexists img, a, _, s1, map_region, view_extent. split_and!; [done..|].
    by rewrite Ht2, <- !app_assoc.
  - destruct Hf as [-> ->]. destruct (error_message w content);
      by rewrite Ht2, <- app_assoc.
Qed.

Lemma drawn_extents_quiet (t : list event) :
  Forall (λ e, is_imshow e = false) t → drawn_extents t = [].
Proof.
  induction 1 as [|e t He _ IH]; [done|]. unfold drawn_extents in *. cbn.
  rewrite IH. by destruct e.
Qed.

Lemma drawn_extents_raise (l t : list event) :
  Forall (λ e, is_imshow e = false) t → drawn_extents (l ++ t) = drawn_extents l.
Proof.
  intros Ht%drawn_extents_quiet. unfold drawn_extents in *.
  by rewrite omap_app, Ht, app_nil_r.
Qed.

Lemma drawn_extents_return (l t : list event) (a : positive) (image : pixels)
    (extent : value) :
  Forall (λ e, is_imshow e = false) t →
  drawn_extents (l ++ t ++ [EImshow a image extent]) = drawn_extents l ++ [extent].
Proof.
  intros Ht%drawn_extents_quiet. unfold drawn_extents in *.
  by rewrite !omap_app, Ht.
Qed.


(** The extent of a given region: its entries in the order 0, 2, 1, 3. *)
Lemma resolve_region_given (w : world) (img : positive) (region : value)
    (s s1 : state) (map_region : coords) (view_extent : value) (r0 r1 r2 r3 : value) :
  value_item region 0 = Ok r0 → value_item region 1 = Ok r1 →
  value_item region 2 = Ok r2 → value_item region 3 = Ok r3 →
  resolve_region w img region s = (s1, Ok (map_region, view_extent)) →
  view_extent = tuple_value (bbox_to_extent (r0, r1, r2, r3)).
Proof.
  intros H0 H1 H2 H3. unfold resolve_region.
  assert (is_None region = false) as -> by (by destruct region).
  cbn [negb]. unfold mbind, M_bind, bindM, emit, lift, mret, M_ret, retM.
  rewrite H0, H1, H2, H3. destruct (rectangle_info w region); [|done].
  by intros [= _ _ <-].
Qed.

(** X16.  When [region] has entries 0 to 3 (west, south, east, north), the
    image is drawn with the extent [bbox_to_extent] gives for them: west,
    east, south, north.  A call that raises draws nothing. *)
Theorem add_layer_extent_of_region (w : world) (ax img_obj dims region : value)
    (cmap : option string) (vis_params : option positive) (s : state)
    (west south east north : value) :
  value_item region 0 = Ok west → value_item region 1 = Ok south →
  value_item region 2 = Ok east → value_item region 3 = Ok north →
  wp (add_layer w ax img_obj dims region cmap vis_params) s
     (λ s' r, drawn_extents (trace s')
              = drawn_extents (trace s) ++
                match r with
                | Ok _ => [tuple_value (bbox_to_extent (west, south, east, north))]
                | Raise _ => []
                end).
Proof.
  intros H0 H1 H2 H3. eapply wp_mono; [apply add_layer_drawing|].
  intros s' [[]|e] (t & Hquiet & Hr).
  - destruct Hr as (img & a & image & s1 & map_region & view_extent & _ & _ & Hres & ->).
    rewrite drawn_extents_return by done.
    by rewrite (resolve_region_given _ _ _ _ _ _ _ _ _ _ _ H0 H1 H2 H3 Hres).
  - rewrite Hr, app_nil_r. by apply drawn_extents_raise.
Qed.

Lemma add_layer_extent_of_region_witness :
  wp (add_layer stub_world an_axes an_image (VInt 1000)
        (VList [VInt 1; VInt 2; VInt 3; VInt 4]) None None) (store_with ∅)
     (λ s' r, drawn_extents (trace s')
              = drawn_extents (trace (store_with ∅)) ++
                match r with
                | Ok _ => [tuple_value (bbox_to_extent (VInt 1, VInt 2, VInt 3, VInt 4))]
                | Raise _ => []
                end).
Proof.
  apply (add_layer_extent_of_region stub_world an_axes an_image (VInt 1000)
           (VList [VInt 1; VInt 2; VInt 3; VInt 4]) None None (store_with ∅)
           (VInt 1) (VInt 2) (VInt 3) (VInt 4)); reflexivity.
Defined.

Lemma foldl_Qcmin_spec (l : list Qc) (x : Qc) :
  foldl Qcmin x l ∈ x :: l ∧ ∀ y, y ∈ x :: l → foldl Qcmin x l ≤ y.
Proof.
  revert x. induction l as [|z l IH]; intros x; cbn [foldl].
  - split; [by left|]. intros y ->%list_elem_of_singleton. apply Qcle_refl.
  - destruct (IH (Qcmin x z)) as [Hin Hle]. split.
    + apply elem_of_cons in Hin as [->|Hin]; [|by do 2 right].
      unfold Qcmin. case_decide; [right; by left|by left].
    + intros y Hy. assert (foldl Qcmin (Qcmin x z) l ≤ Qcmin x z) as Hm
        by (apply Hle; by left).
      apply elem_of_cons in Hy as [->|Hy]; [|apply elem_of_cons in Hy as [->|Hy]].
      * eapply Qcle_trans; [exact Hm|]. unfold Qcmin.
        case_decide; [by apply Qclt_le_weak|apply Qcle_refl].
      * eapply Qcle_trans; [exact Hm|]. unfold Qcmin.
        case_decide; [apply Qcle_refl|by apply Qcnot_lt_le].
      * apply Hle. by right.
Qed.

Lemma foldl_Qcmax_spec (l : list Qc) (x : Qc) :
  foldl Qcmax x l ∈ x :: l ∧ ∀ y, y ∈ x :: l → y ≤ foldl Qcmax x l.
Proof.
  revert x. induction l as [|z l IH]; intros x; cbn [foldl].
  - split; [by left|]. intros y ->%list_elem_of_singleton. apply Qcle_refl.
  - destruct (IH (Qcmax x z)) as [Hin Hle]. split.
    + apply elem_of_cons in Hin as [->|Hin]; [|by do 2 right].
      unfold Qcmax. case_decide; [right; by left|by left].
    + intros y Hy. assert (Qcmax x z ≤ foldl Qcmax (Qcmax x z) l) as Hm
        by (apply Hle; by left).
      apply elem_of_cons in Hy as [->|Hy]; [|apply elem_of_cons in Hy as [->|Hy]].
      * eapply Qcle_trans; [|exact Hm]. unfold Qcmax.
        case_decide; [by apply Qclt_le_weak|apply Qcle_refl].
      * eapply Qcle_trans; [|exact Hm]. unfold Qcmax.
        case_decide; [apply Qcle_refl|by apply Qcnot_lt_le].
      * apply Hle. by right.
Qed.

Lemma py_min_spec (l : list Qc) (m : Qc) :
  py_min l = Ok m → m ∈ l ∧ ∀ y, y ∈ l → m ≤ y.
Proof. destruct l as [|x l]; [done|]. intros [= <-]. apply foldl_Qcmin_spec. Qed.

Lemma py_max_spec (l : list Qc) (m : Qc) :
  py_max l = Ok m → m ∈ l ∧ ∀ y, y ∈ l → y ≤ m.
Proof. destruct l as [|x l]; [done|]. intros [= <-]. apply foldl_Qcmax_spec. Qed.

(** The extent worked out from the bounds of the image. *)
Lemma resolve_region_bounds (w : world) (img : positive) (s s1 : state)
    (map_region : coords) (view_extent : value) :
  resolve_region w img VNone s = (s1, Ok (map_region, view_extent)) →
  ∃ ring rest xmin xmax ymin ymax,
    bounds_info w img = Ok (ring :: rest) ∧
    py_min (ring.*1) = Ok xmin ∧ py_max (ring.*1) = Ok xmax ∧
    py_min (ring.*2) = Ok ymin ∧ py_max (ring.*2) = Ok ymax ∧
    view_extent = VList [VFloat xmin; VFloat xmax; VFloat ymin; VFloat ymax].
Proof.
  unfold resolve_region. cbn [is_None negb].
  unfold mbind, M_bind, bindM, emit, lift, mret, M_ret, retM, raise.
  destruct (bounds_info w img) as [[|ring rest]|e]; [done| |done].
  change (subscript (ring :: rest) 0) with (Ok ring).
  cbv beta iota. case_decide; [done|].
  destruct (py_min (ring.*1)) as [xmin|] eqn:Hxmin; [|done].
  destruct (py_max (ring.*1)) as [xmax|] eqn:Hxmax; [|done].
  destruct (py_min (ring.*2)) as [ymin|] eqn:Hymin; [|done].
  destruct (py_max (ring.*2)) as [ymax|] eqn:Hymax; [|done].
  intros [= _ _ <-]. by exists ring, rest, xmin, xmax, ymin, ymax.
Qed.

(** X17.  Without a region the image is drawn with the bounding box of the
    first ring of its footprint: the extent is [xmin, xmax, ymin, ymax],
    every point of the ring lies inside it, and each bound is attained by a
    point of the ring.  A call that raises draws nothing. *)
Theorem add_layer_extent_of_image_bounds (w : world) (ax img_obj dims : value)
    (cmap : option string) (vis_params : option positive) (s : state) :
  wp (add_layer w ax img_obj dims VNone cmap vis_params) s
     (λ s' r,
        match r with
        | Ok _ => ∃ img ring rest xmin xmax ymin ymax,
            img_obj = VObj ImageClass img ∧
            bounds_info w img = Ok (ring :: rest) ∧
            drawn_extents (trace s')
            = drawn_extents (trace s)
              ++ [VList [VFloat xmin; VFloat xmax; VFloat ymin; VFloat ymax]] ∧
            (∀ x y, (x, y) ∈ ring → xmin ≤ x ∧ x ≤ xmax ∧ ymin ≤ y ∧ y ≤ ymax) ∧
            xmin ∈ ring.*1 ∧ xmax ∈ ring.*1 ∧ ymin ∈ ring.*2 ∧ ymax ∈ ring.*2
        | Raise _ => drawn_extents (trace s') = drawn_extents (trace s)
        end).
Proof.
  eapply wp_mono; [apply add_layer_drawing|].
  intros s' [[]|e] (t & Hquiet & Hr); [|rewrite Hr; by apply drawn_extents_raise].
  destruct Hr as (img & a & image & s1 & map_region & view_extent & -> & _ & Hres & ->).
  apply resolve_region_bounds in Hres
    as (ring & rest & xmin & xmax & ymin & ymax & Hb & Hx0 & Hx1 & Hy0 & Hy1 & ->).
  apply py_min_spec in Hx0 as [? Hx0]. apply py_max_spec in Hx1 as [? Hx1].
  apply py_min_spec in Hy0 as [? Hy0]. apply py_max_spec in Hy1 as [? Hy1].
  exists img, ring, rest, xmin, xmax, ymin, ymax.
  split_and!; [done|done|by apply drawn_extents_return| |done..].
  intros x y Hp.
  assert (x ∈ ring.*1) by (by apply (list_elem_of_fmap_2 fst ring (x, y))).
  assert (y ∈ ring.*2) by (by apply (list_elem_of_fmap_2 snd ring (x, y))).
  split_and!; auto.
Qed.

Lemma resolve_region_short (w : world) (img : positive) (region : value)
    (l : list value) (s : state) :
  region = VList l ∨ region = VTuple l → (length l < 4)%nat →
  resolve_region w img region s
  = (State (heap s) (trace s ++ [EGetInfo (RectangleInfo region)]),
     Raise match rectangle_info w region with
           | Ok _ => IndexError
           | Raise e => e
           end).
Proof.
  intros Hregion Hlen. unfold resolve_region.
  assert (is_None region = false) as -> by (by destruct Hregion as [-> | ->]).
  cbn [negb]. unfold mbind, M_bind, bindM, emit, lift, mret, M_ret, retM.
  destruct (rectangle_info w region) as [map_region|e]; [|done].
  destruct l as [|r0 [|r1 [|r2 [|r3 l]]]]; [| | | |cbn in Hlen; lia];
    by destruct Hregion as [-> | ->].
Qed.



(** With well-typed arguments, an answered geometry query and a request
    dictionary that can be built, the call is the fetch of that dictionary. *)
Lemma add_layer_fetches (w : world) (ax dims region : value) (cmap : option string)
    (vis_params : option positive) (vis : option (gmap string value))
    (s s1 : state) (img a : positive) (map_region : coords) (view_extent : value)
    (d : gmap string value) :
  ax = VObj GeoAxesClass a ∨ ax = VObj GeoAxesSubplotClass a →
  type_of dims ∈ [TList; TTuple; TInt] →
  resolve_region w img region s = (s1, Ok (map_region, view_extent)) →
  referred s vis_params vis →
  merged_args w map_region dims region cmap vis = Ok d →
  ∃ s2, trace s2 = trace s1 ∧
        add_layer w ax (VObj ImageClass img) dims region cmap vis_params s
        = fetch_and_draw w img a view_extent d s2.
Proof.
  intros Hax Hdims Hres Href Hd.
  rewrite (add_layer_unfold w ax dims region cmap vis_params img a) by done.
  pose proof (resolve_region_calls w img region s) as Hcalls.
  unfold wp in Hcalls. rewrite Hres in *. cbn [fst snd] in Hcalls.
  destruct Hcalls as [Hheap _].
  assert (referred s1 vis_params vis) as Href1.
  { unfold referred in *. by rewrite Hheap. }
  pose proof (request_args_content w map_region dims region cmap vis_params vis s1 Href1)
    as Hreq.
  unfold wp in Hreq.
  destruct (request_args w map_region dims region cmap vis_params s1) as [s2 [args|e]];
    cbn [fst snd] in Hreq; destruct Hreq as [Ht Hreq]; [|congruence].
  destruct Hreq as (d' & Hd' & Hm). rewrite Hd'.
  exists s2. split; [done|]. congruence.
Qed.



(** The request for a non-empty [vis_params]: its entries win, the other
    keys are the ones the call worked out; it can only fail to be built
    when a colour map is given. *)
Lemma merged_args_vis (w : world) (map_region : coords) (dims region : value)
    (cmap : option string) (vis : gmap string value) (k : string) (v : value) :
  vis !! k = Some v →
  match merged_args w map_region dims region cmap (Some vis) with
  | Ok d => d !! k = Some v ∧
            ∀ k', vis !! k' = None → k' ≠ "palette" →
                  d !! k' = base_args map_region dims region !! k'
  | Raise _ => cmap_given cmap = true
  end.
Proof.
  intros Hk. unfold merged_args.
  assert (dom vis ≠ ∅) as Hdom.
  { intros Hdom. apply (elem_of_dom_2 vis) in Hk. rewrite Hdom in Hk.
    by apply elem_of_empty in Hk. }
  rewrite decide_False by done.
  destruct (cmap_given cmap); cbn [andb]; [case_bool_decide; [done|]|].
  - destruct (build_palette w (default "" cmap) 256) as [palette|e]; [|done]. cbn.
    split; [by apply lookup_union_Some_l|].
    intros k' Hk' Hne. by rewrite lookup_union_r, lookup_insert_ne.
  - split; [by apply lookup_union_Some_l|].
    intros k' Hk' Hne. by rewrite lookup_union_r.
Qed.

(** X20.  Every entry of a non-empty [vis_params] reaches the thumbnail
    request as it is, also under the keys the call sets itself (format,
    dimensions, region): the caller's value wins.  The keys [vis_params]
    does not have keep the values worked out by the call.  The request is
    always made unless a colour map is given. *)
Theorem add_layer_vis_params_take_precedence (w : world) (ax dims region : value)
    (cmap : option string) (l : positive) (vis : gmap string value)
    (s s1 : state) (img a : positive) (map_region : coords) (view_extent : value)
    (k : string) (v : value) :
  ax = VObj GeoAxesClass a ∨ ax = VObj GeoAxesSubplotClass a →
  type_of dims ∈ [TList; TTuple; TInt] →
  resolve_region w img region s = (s1, Ok (map_region, view_extent)) →
  heap s !! l = Some vis → vis !! k = Some v →
  wp (add_layer w ax (VObj ImageClass img) dims region cmap (Some l)) s
     (λ s' r,
        (∃ d, thumbnail_requests (trace s') = thumbnail_requests (trace s) ++ [d] ∧
              d !! k = Some v ∧
              ∀ k', vis !! k' = None → k' ≠ "palette" →
                    d !! k' = base_args map_region dims region !! k') ∨
        (raises r ∧ cmap_given cmap = true ∧
         thumbnail_requests (trace s') = thumbnail_requests (trace s))).
Proof.
  intros Hax Hdims Hres Hl Hk.
  eapply wp_mono.
  - apply (add_layer_request w ax (VObj ImageClass img) dims region cmap (Some l)
             (Some vis) s s1 img a map_region view_extent); [done..|by exists vis].
  - intros s' r Hreq.
    pose proof (merged_args_vis w map_region dims region cmap vis k v Hk) as Hm.
    destruct (merged_args w map_region dims region cmap (Some vis)) as [d|e].
    + left. exists d. by destruct Hm.
    + right. destruct Hreq as [-> Hreq]. split_and!; [by eexists|done..].
Qed.

Lemma add_layer_vis_params_take_precedence_witness :
  wp (add_layer stub_world an_axes (VObj ImageClass 7) (VInt 1000) VNone None
        (Some 1%positive)) (store_with {[ "format" := VStr "jpg" ]})
     (λ s' r,
        ∃ d, thumbnail_requests (trace s') = [d] ∧ d !! "format" = Some (VStr "jpg")).
Proof.
  eapply wp_mono.
  - apply (add_layer_vis_params_take_precedence stub_world an_axes (VInt 1000) VNone
             None 1 {[ "format" := VStr "jpg" ]} (store_with {[ "format" := VStr "jpg" ]})
             (resolve_region stub_world 7 VNone (store_with {[ "format" := VStr "jpg" ]})).1
             7 3 square
             (VList [VFloat 0; VFloat (Qc_of_Z 10); VFloat 0; VFloat (Qc_of_Z 10)])
             "format" (VStr "jpg")).
    + by right.
    + apply (bool_decide_unpack _). vm_compute. exact I.
    + vm_compute. reflexivity.
    + reflexivity.
    + reflexivity.
  - intros s' r [(d & Hd & Hk & _)|(_ & [=] & _)]. by exists d.
Defined.

Lemma resolve_region_truthy (w : world) (img : positive) (region : value)
    (s s1 : state) (map_region : coords) (view_extent : value) :
  resolve_region w img region s = (s1, Ok (map_region, view_extent)) →
  truthy region = negb (is_None region).
Proof.
  unfold resolve_region. destruct (is_None region) eqn:Hnone; cbn [negb].
  - by destruct region.
  - unfold mbind, M_bind, bindM, emit, lift, mret, M_ret, retM.
    destruct (rectangle_info w region); [|done].
    destruct (value_item region 0) as [r0|] eqn:H0; [|done]. intros _.
    destruct region as [| | | |str|l|l|]; try done; cbn in *.
    + apply bool_decide_eq_true_2. by destruct str.
    + apply bool_decide_eq_true_2. by destruct l.
    + apply bool_decide_eq_true_2. by destruct l.
Qed.

(** X21.  Without [vis_params] a well-typed call always makes one thumbnail
    request, whatever the colour map, and the request has exactly the
    format png, the region when one was given (as the coordinates the
    geometry service answered) and the dimensions unless [dims] is zero or
    empty.  In a call that gets this far a region that was given is never
    left out: the tests [region is not None] and [if region] agree. *)
Theorem add_layer_request_without_vis_params (w : world) (ax dims region : value)
    (cmap : option string) (s s1 : state) (img a : positive)
    (map_region : coords) (view_extent : value) :
  ax = VObj GeoAxesClass a ∨ ax = VObj GeoAxesSubplotClass a →
  type_of dims ∈ [TList; TTuple; TInt] →
  resolve_region w img region s = (s1, Ok (map_region, view_extent)) →
  wp (add_layer w ax (VObj ImageClass img) dims region cmap None) s
     (λ s' r,
        ∃ d, thumbnail_requests (trace s') = thumbnail_requests (trace s) ++ [d] ∧
             d !! "format" = Some (VStr "png") ∧
             d !! "region" = (if is_None region then None
                              else Some (coords_value map_region)) ∧
             d !! "dimensions" = (if truthy dims then Some dims else None) ∧
             ∀ k, k ∉ ["format"; "region"; "dimensions"] → d !! k = None).
Proof.
  intros Hax Hdims Hres.
  eapply wp_mono.
  - by apply (add_layer_request w ax (VObj ImageClass img) dims region cmap None
                None s s1 img a map_region view_extent).
  - intros s' r Hreq. cbn [merged_args] in Hreq.
    exists (base_args map_region dims region). split; [done|].
    unfold base_args. rewrite (resolve_region_truthy _ _ _ _ _ _ _ Hres).
    destruct (is_None region), (truthy dims); cbn [negb].
    all: split_and!;
      [by rewrite ?lookup_insert_eq, ?lookup_insert_ne, ?lookup_singleton_eq by done
      |by rewrite ?lookup_insert_eq, ?lookup_insert_ne, ?lookup_singleton_ne by done
      |by rewrite ?lookup_insert_eq, ?lookup_insert_ne, ?lookup_singleton_ne by done
      |].
    all: intros k; rewrite !elem_of_cons, elem_of_nil; intros Hk.
    all: rewrite ?lookup_insert_ne, ?lookup_singleton_ne; [done|intros <-; tauto..].
Qed.

Lemma add_layer_request_without_vis_params_witness :
  wp (add_layer stub_world an_axes (VObj ImageClass 7) (VInt 0) VNone (Some "viridis")
        None) (store_with ∅)
     (λ s' r, ∃ d, thumbnail_requests (trace s') = [d] ∧
                   d !! "dimensions" = None ∧ d !! "palette" = None).
Proof.
  eapply wp_mono.
  - apply (add_layer_request_without_vis_params stub_world an_axes (VInt 0) VNone
             (Some "viridis") (store_with ∅)
             (resolve_region stub_world 7 VNone (store_with ∅)).1 7 3 square
             (VList [VFloat 0; VFloat (Qc_of_Z 10); VFloat 0; VFloat (Qc_of_Z 10)])).
    + by right.
    + apply (bool_decide_unpack _). vm_compute. exact I.
    + vm_compute. reflexivity.
  - intros s' r (d & Hd & _ & _ & Hdims & Hrest). exists d.
    split_and!; [done|done|].
    apply Hrest. apply (bool_decide_unpack _). vm_compute. exact I.
Defined.

(** * Colorbar composer: colours and normalisation *)

Lemma colorbars_snoc (t : list event) (e : event) :
  colorbars (t ++ [e])
  = colorbars t
    ++ match e with EColorbarBase _ n alpha c _ => [(n, alpha, c)] | _ => [] end.
Proof. unfold colorbars. rewrite omap_app. by destruct e. Qed.

Lemma colorbar_scalars_without_cax (vis kwargs : gmap string value) :
  colorbar_scalars vis (delete "cax" kwargs) = colorbar_scalars vis kwargs.
Proof. unfold colorbar_scalars. by rewrite lookup_delete_ne. Qed.

Lemma resolve_placement_quiet (w : world) (a : positive) (loc : value)
    (kwargs : gmap string value) (s : state) :
  wp (resolve_placement w a loc kwargs) s
     (λ s' r, heap s' = heap s ∧ colorbars (trace s') = colorbars (trace s) ∧
              ∀ cax kw, r = Ok (cax, kw) → kw = kwargs ∨ kw = delete "cax" kwargs).
Proof.
  unfold resolve_placement. wp_walk; unfold emit; cbn [fst snd heap trace];
    rewrite ?colorbars_snoc, ?app_nil_r;
    (split_and!; [done..|]); intros ? ? [=]; subst; auto.
Qed.

Lemma colorbar_colors_quiet (w : world) (vis : gmap string value)
    (cmap : option string) (discrete : bool) (vmin vmax : value) (s : state) :
  wp (colorbar_colors w vis cmap discrete vmin vmax) s
     (λ s' _, heap s' = heap s ∧ colorbars (trace s') = colorbars (trace s)).
Proof.
  unfold colorbar_colors. wp_walk; unfold emit; cbn [fst snd heap trace];
    by rewrite ?colorbars_snoc, ?app_nil_r.
Qed.

(** What a call leaves among the colorbars of the trace: nothing when it
    raises before the constructor, otherwise one colorbar with the scalars
    and the colours resolved from [vis_params]. *)
Lemma colorbar_body_built (w : world) (l : positive) (vis : gmap string value)
    (cmap : option string) (discrete : bool) (label : option string)
    (cax : value) (kwargs : gmap string value) (s : state) :
  heap s !! l = Some vis →
  wp (colorbar_body w (Some l) cmap discrete label cax kwargs) s
     (λ s' r,
        (raises r ∧ colorbars (trace s') = colorbars (trace s)) ∨
        ∃ vmin vmax alpha s0 s0' c n,
          colorbar_scalars vis kwargs = Ok (vmin, vmax, alpha) ∧
          colorbar_colors w vis cmap discrete vmin vmax s0 = (s0', Ok (c, n)) ∧
          colorbars (trace s') = colorbars (trace s) ++ [(n, alpha, c)]).
Proof.
  intros Hl. unfold colorbar_body, raises.
  apply wp_bind, wp_load; [|congruence].
  intros d Hd. assert (d = vis) as -> by congruence. clear Hd.
  apply wp_bind. case_decide as Hdom.
  { apply wp_ret, wp_bind, wp_raise. left. by eauto. }
  apply wp_bind, wp_lift.
  destruct (colorbar_scalars vis kwargs) as [[[vmin vmax] alpha]|e] eqn:Hsc;
    [|left; by eauto].
  apply wp_bind.
  pose proof (colorbar_colors_quiet w vis cmap discrete vmin vmax s) as Hq.
  unfold wp in Hq. unfold wp at 1.
  destruct (colorbar_colors w vis cmap discrete vmin vmax s) as [s2 [[c n]|e]] eqn:Hcol;
    cbn [fst snd] in *; destruct Hq as [_ Hq]; [|left; by eauto].
  apply wp_ret, wp_bind, wp_ret, wp_bind.
  destruct (repeated_keyword kwargs) as [k|]; [apply wp_raise; left; by eauto|].
  apply wp_ret, wp_bind, wp_emit, wp_bind, wp_lift.
  assert (colorbars (trace s2 ++ [EColorbarBase cax n alpha c kwargs])
          = colorbars (trace s) ++ [(n, alpha, c)]) as Hbuilt
    by (by rewrite colorbars_snoc, Hq).
  destruct (colorbar_base w cax n alpha c kwargs) as [[]|e].
  - destruct (vis !! "bands") as [bands|]; [|destruct label as [label|]].
    all: first [apply wp_emit | apply wp_ret].
    all: right.
    all: exists vmin, vmax, alpha, s, s2, c, n; split_and!; [done..|].
    all: cbn [heap trace]; by rewrite ?colorbars_snoc, ?app_nil_r, Hq.
  - right. exists vmin, vmax, alpha, s, s2, c, n. by split_and!.
Qed.

Lemma add_colorbar_built (w : world) (ax : value) (l : positive)
    (vis : gmap string value) (loc : value) (cmap : option string) (discrete : bool)
    (label : option string) (kwargs : gmap string value) (s : state) :
  heap s !! l = Some vis →
  wp (add_colorbar w ax (Some l) loc cmap discrete label kwargs) s
     (λ s' r,
        (raises r ∧ colorbars (trace s') = colorbars (trace s)) ∨
        ∃ vmin vmax alpha s0 s0' c n,
          colorbar_scalars vis kwargs = Ok (vmin, vmax, alpha) ∧
          colorbar_colors w vis cmap discrete vmin vmax s0 = (s0', Ok (c, n)) ∧
          colorbars (trace s') = colorbars (trace s) ++ [(n, alpha, c)]).
Proof.
  intros Hl. unfold add_colorbar. apply wp_bind.
  destruct ax as [| | | | | | |[] a]; try (apply wp_raise; left; split; [by eexists|done]).
  all: apply wp_ret, wp_bind.
  all: eapply wp_mono; [apply resolve_placement_quiet|].
  all: intros s1 [[cax kw]|e] (Hheap & Hquiet & Hkw); [|left; split; [by eexists|done]].
  all: eapply wp_mono; [apply (colorbar_body_built w l vis); by rewrite Hheap|].
  all: intros s2 r; rewrite Hquiet.
  all: destruct (Hkw cax kw eq_refl) as [-> | ->];
    by rewrite ?colorbar_scalars_without_cax.
Qed.

Lemma with_hash_hashed (i j : string) : with_hash i = Ok j → i ≠ "" ∧ j = hashed i.
Proof.
  destruct i as [|c i]; [done|]. unfold with_hash, hashed.
  case_decide as Hc; intros [= <-]; (split; [done|]).
  - by subst.
  - by destruct c as [[] [] [] [] [] [] [] []].
Qed.

Lemma with_hash_empty : with_hash "" = Raise IndexError.
Proof. done. Qed.

Lemma hashed_starts_with_hash (i : string) : starts_with_hash (hashed i).
Proof.
  unfold starts_with_hash, hashed.
  destruct i as [|c i]; [by eexists|].
  destruct c as [[] [] [] [] [] [] [] []]; by eexists.
Qed.

Lemma mapM_with_hash (l k : list string) :
  mapM with_hash l = Ok k → ("" ∉ l) ∧ k = hashed <$> l.
Proof.
  revert k. induction l as [|i l IH]; intros k; cbn.
  - intros [= <-]. split; [apply not_elem_of_nil|done].
  - destruct (with_hash i) as [j|] eqn:Hj; [|done]. cbn.
    destruct (mapM with_hash l) as [k'|]; [|done]. cbn. intros [= <-].
    apply with_hash_hashed in Hj as [Hne ->].
    destruct (IH k' eq_refl) as [Hnot ->]. split; [|done].
    rewrite not_elem_of_cons. by split.
Qed.

Lemma mapM_with_hash_empty (l : list string) :
  "" ∈ l → ∃ e, mapM with_hash l = Raise e.
Proof.
  intros Hin. destruct (mapM with_hash l) as [k|e] eqn:Hk; [|by eexists].
  by apply mapM_with_hash in Hk as [Hnot _].
Qed.

(** The colours of a palette. *)
Lemma colorbar_colors_palette (w : world) (vis : gmap string value)
    (cmap : option string) (discrete : bool) (vmin vmax : value) (p : string)
    (s s' : state) (c : colormap) (n : norm) :
  vis !! "palette" = Some (VStr p) →
  colorbar_colors w vis cmap discrete vmin vmax s = (s', Ok (c, n)) →
  let hexcodes := hashed <$> split_on "," p in
  ("" ∉ split_on "," p) ∧
  c = (if discrete then ListedColormap hexcodes
       else LinearSegmentedColormap "custom" hexcodes 256) ∧
  if discrete
  then ∃ lo hi vals,
         number vmin = Ok lo ∧ number vmax = Ok hi ∧
         np_linspace lo hi (Z.of_nat (length hexcodes) + 1) = Ok vals ∧
         n = BoundaryNorm vals (Z.of_nat (length hexcodes))
  else n = Normalize vmin vmax.
Proof.
  intros Hp Hrun hexcodes.
  enough (wp (colorbar_colors w vis cmap discrete vmin vmax) s
            (λ _ r, r = Ok (c, n) →
               ("" ∉ split_on "," p) ∧
               c = (if discrete then ListedColormap hexcodes
                    else LinearSegmentedColormap "custom" hexcodes 256) ∧
               if discrete
               then ∃ lo hi vals,
                      number vmin = Ok lo ∧ number vmax = Ok hi ∧
                      np_linspace lo hi (Z.of_nat (length hexcodes) + 1) = Ok vals ∧
                      n = BoundaryNorm vals (Z.of_nat (length hexcodes))
               else n = Normalize vmin vmax)) as Hwp.
  { unfold wp in Hwp. rewrite Hrun in Hwp. by apply Hwp. }
  clear Hrun. unfold colorbar_colors. rewrite Hp. apply wp_bind.
  apply (wp_mono _ _ (λ _ _, True)); [done|]. intros s1 [given|e] _; [|done].
  apply wp_bind, wp_lift, wp_bind, wp_lift.
  destruct (mapM with_hash (split_on "," p)) as [codes|e] eqn:Hm; [|done].
  apply mapM_with_hash in Hm as [Hnot ->]. fold hexcodes.
  destruct discrete; cbn [colormap_N].
  - apply wp_bind, wp_lift. destruct (number vmin) as [lo|]; [|done].
    apply wp_bind, wp_lift. destruct (number vmax) as [hi|]; [|done].
    apply wp_bind, wp_lift.
    destruct (np_linspace lo hi _) as [vals|] eqn:Hvals; [|done].
    apply wp_ret. intros [= <- <-]. split_and!; [done..|]. by exists lo, hi, vals.
  - apply wp_ret. by intros [= <- <-].
Qed.

(** The colours without a palette. *)
Lemma colorbar_colors_registered (w : world) (vis : gmap string value)
    (cmap : option string) (discrete : bool) (vmin vmax : value)
    (s s' : state) (c : colormap) (n : norm) :
  vis !! "palette" = None →
  colorbar_colors w vis cmap discrete vmin vmax s = (s', Ok (c, n)) →
  ∃ name, cmap = Some name ∧ plt_get_cmap w name = Ok c ∧ n = Normalize vmin vmax.
Proof.
  intros Hp. unfold colorbar_colors. rewrite Hp.
  destruct cmap as [name|].
  - unfold mbind, M_bind, bindM, mret, M_ret, retM, lift, raise.
    destruct (when discrete (emit (EWarn discrete_warning)) s) as [s1 [[]|e]]; [|done].
    destruct (plt_get_cmap w name) as [c0|e] eqn:Hget; [|done].
    destruct (when discrete (emit (EWarn discrete_warning)) s1) as [s2 [[]|e]]; [|done].
    intros [= _ <- <-]. by exists name.
  - done.
Qed.

(** X22.  When [vis_params] has a palette, the colours of the colorbar come
    from the palette, whatever the [cmap] argument: one colour per
    comma-separated piece, in order, each piece taken as it is when it
    starts with # and with a # put in front otherwise; a discrete colorbar
    gets them as a listed colour map, a continuous one as a segmented map
    of 256 levels.  A palette with an empty piece (an empty string, a
    leading, trailing or doubled comma) never gives a colorbar: the call
    raises. *)
Theorem add_colorbar_palette_decides_colours (w : world) (ax : value) (l : positive)
    (vis : gmap string value) (loc : value) (cmap : option string) (discrete : bool)
    (label : option string) (kwargs : gmap string value) (s : state) (p : string) :
  heap s !! l = Some vis → vis !! "palette" = Some (VStr p) →
  wp (add_colorbar w ax (Some l) loc cmap discrete label kwargs) s
     (λ s' r,
        (raises r ∧ colorbars (trace s') = colorbars (trace s)) ∨
        ∃ n alpha hexcodes,
          colorbars (trace s')
          = colorbars (trace s)
            ++ [(n, alpha, if discrete then ListedColormap hexcodes
                           else LinearSegmentedColormap "custom" hexcodes 256)] ∧
          hexcodes = hashed <$> split_on "," p ∧
          Forall starts_with_hash hexcodes ∧
          ("" ∉ split_on "," p)).
Proof.
  intros Hl Hp. eapply wp_mono; [by apply (add_colorbar_built w ax l vis)|].
  intros s' r [Hraise|(vmin & vmax & alpha & s0 & s0' & c & n & _ & Hcol & Hbuilt)];
    [by left|right].
  destruct (colorbar_colors_palette _ _ _ _ _ _ _ _ _ _ _ Hp Hcol) as (Hnot & -> & _).
  exists n, alpha, (hashed <$> split_on "," p). split_and!; [done..| |done].
  apply Forall_fmap, Forall_forall. intros i _. apply hashed_starts_with_hash.
Qed.

Lemma add_colorbar_palette_decides_colours_witness :
  wp (add_colorbar stub_world an_axes (Some 1%positive) (VStr "right") (Some "gray") false
        None ∅) (store_with {[ "palette" := VStr "ff0000,#00ff00" ]})
     (λ s' r,
        (raises r ∧ colorbars (trace s') = []) ∨
        ∃ n alpha hexcodes,
          colorbars (trace s')
          = [(n, alpha, LinearSegmentedColormap "custom" hexcodes 256)] ∧
          hexcodes = hashed <$> split_on "," "ff0000,#00ff00" ∧
          Forall starts_with_hash hexcodes ∧
          ("" ∉ split_on "," "ff0000,#00ff00")).
Proof.
  apply (add_colorbar_palette_decides_colours stub_world an_axes 1
           {[ "palette" := VStr "ff0000,#00ff00" ]} (VStr "right") (Some "gray") false
           None ∅ (store_with {[ "palette" := VStr "ff0000,#00ff00" ]})
           "ff0000,#00ff00"); reflexivity.
Defined.

(** X23.  A discrete colorbar of a palette of [N] colours is normalised by
    [N + 1] boundaries, evenly spaced from the minimum to the maximum of
    [vis_params] (0 and 1 when absent), the first on the minimum and the
    last on the maximum, and its colour map has [N] colours. *)
Theorem add_colorbar_discrete_boundaries (w : world) (ax : value) (l : positive)
    (vis : gmap string value) (loc : value) (cmap : option string)
    (label : option string) (kwargs : gmap string value) (s : state) (p : string) :
  heap s !! l = Some vis → vis !! "palette" = Some (VStr p) →
  wp (add_colorbar w ax (Some l) loc cmap true label kwargs) s
     (λ s' r,
        (raises r ∧ colorbars (trace s') = colorbars (trace s)) ∨
        ∃ lo hi vals alpha c,
          number (default (VInt 0) (vis !! "min")) = Ok lo ∧
          number (default (VInt 1) (vis !! "max")) = Ok hi ∧
          colorbars (trace s')
          = colorbars (trace s)
            ++ [(BoundaryNorm vals (Z.of_nat (length (split_on "," p))), alpha, c)] ∧
          colormap_N c = Z.of_nat (length (split_on "," p)) ∧
          evenly_spaced lo hi (Z.of_nat (length (split_on "," p)) + 1) vals).
Proof.
  intros Hl Hp. eapply wp_mono; [by apply (add_colorbar_built w ax l vis)|].
  intros s' r [Hraise|(vmin & vmax & alpha & s0 & s0' & c & n & Hsc & Hcol & Hbuilt)];
    [by left|right].
  apply colorbar_scalars_resolved in Hsc as (-> & -> & _).
  destruct (colorbar_colors_palette _ _ _ _ _ _ _ _ _ _ _ Hp Hcol)
    as (_ & -> & lo & hi & vals & Hlo & Hhi & Hvals & ->).
  rewrite length_fmap in *.
  exists lo, hi, vals, alpha, (ListedColormap (hashed <$> split_on "," p)).
  split_and!; [done..|by cbn; rewrite length_fmap|].
  destruct (linspace_evenly lo hi (Z.of_nat (length (split_on "," p)) + 1))
    as (ticks & Hticks & Heven); [lia|].
  congruence.
Qed.

Lemma add_colorbar_discrete_boundaries_witness :
  wp (add_colorbar stub_world an_axes (Some 1%positive) (VStr "right") (Some "gray") true
        None ∅)
     (store_with {[ "palette" := VStr "ff0000,#00ff00"; "max" := VInt 10 ]})
     (λ s' r,
        (raises r ∧
         colorbars (trace s')
         = colorbars (trace (store_with {[ "palette" := VStr "ff0000,#00ff00"; "max" := VInt 10 ]}))) ∨
        ∃ lo hi vals alpha c,
          number (default (VInt 0)
                    (({[ "palette" := VStr "ff0000,#00ff00"; "max" := VInt 10 ]} : gmap string value) !! "min")) = Ok lo ∧
          number (default (VInt 1)
                    (({[ "palette" := VStr "ff0000,#00ff00"; "max" := VInt 10 ]} : gmap string value) !! "max")) = Ok hi ∧
          colorbars (trace s')
          = colorbars (trace (store_with {[ "palette" := VStr "ff0000,#00ff00"; "max" := VInt 10 ]}))
            ++ [(BoundaryNorm vals (Z.of_nat (length (split_on "," "ff0000,#00ff00"))),
                 alpha, c)] ∧
          colormap_N c = Z.of_nat (length (split_on "," "ff0000,#00ff00")) ∧
          evenly_spaced lo hi (Z.of_nat (length (split_on "," "ff0000,#00ff00")) + 1) vals).
Proof.
  apply (add_colorbar_discrete_boundaries stub_world an_axes 1
           {[ "palette" := VStr "ff0000,#00ff00"; "max" := VInt 10 ]} (VStr "right")
           (Some "gray") None ∅
           (store_with {[ "palette" := VStr "ff0000,#00ff00"; "max" := VInt 10 ]})
           "ff0000,#00ff00"); reflexivity.
Defined.

(** X24.  Without a palette the colorbar shows the registered colour map
    that [cmap] names, normalised linearly between the minimum and maximum
    of [vis_params] (0 and 1 when absent), also when [discrete] is set.
    With neither a palette nor a colour map no colorbar is built and the
    call raises. *)
Theorem add_colorbar_registered_colour_map (w : world) (ax : value) (l : positive)
    (vis : gmap string value) (loc : value) (cmap : option string) (discrete : bool)
    (label : option string) (kwargs : gmap string value) (s : state) :
  heap s !! l = Some vis → vis !! "palette" = None →
  wp (add_colorbar w ax (Some l) loc cmap discrete label kwargs) s
     (λ s' r,
        (raises r ∧ colorbars (trace s') = colorbars (trace s)) ∨
        ∃ name c alpha,
          cmap = Some name ∧ plt_get_cmap w name = Ok c ∧
          colorbars (trace s')
          = colorbars (trace s)
            ++ [(Normalize (default (VInt 0) (vis !! "min"))
                           (default (VInt 1) (vis !! "max")), alpha, c)]).
Proof.
  intros Hl Hp. eapply wp_mono; [by apply (add_colorbar_built w ax l vis)|].
  intros s' r [Hraise|(vmin & vmax & alpha & s0 & s0' & c & n & Hsc & Hcol & Hbuilt)];
    [by left|right].
  apply colorbar_scalars_resolved in Hsc as (-> & -> & _).
  destruct (colorbar_colors_registered _ _ _ _ _ _ _ _ _ _ Hp Hcol)
    as (name & -> & Hget & ->).
  by exists name, c, alpha.
Qed.

Lemma add_colorbar_registered_colour_map_witness :
  wp (add_colorbar stub_world an_axes (Some 1%positive) (VStr "right") None true
        None ∅) (store_with {[ "min" := VInt 0 ]})
     (λ s' r,
        (raises r ∧
         colorbars (trace s') = colorbars (trace (store_with {[ "min" := VInt 0 ]}))) ∨
        ∃ name c alpha,
          None = Some name ∧ plt_get_cmap stub_world name = Ok c ∧
          colorbars (trace s')
          = colorbars (trace (store_with {[ "min" := VInt 0 ]}))
            ++ [(Normalize (default (VInt 0)
                              (({[ "min" := VInt 0 ]} : gmap string value) !! "min"))
                           (default (VInt 1)
                              (({[ "min" := VInt 0 ]} : gmap string value) !! "max")),
                 alpha, c)]).
Proof.
  apply (add_colorbar_registered_colour_map stub_world an_axes 1 {[ "min" := VInt 0 ]}
           (VStr "right") None true None ∅ (store_with {[ "min" := VInt 0 ]}));
    reflexivity.
Defined.

Lemma colorbar_body_rejects (w : world) (l : positive) (vis : gmap string value)
    (cmap : option string) (discrete : bool) (label : option string)
    (cax : value) (kwargs : gmap string value) (s : state) (e : exn) :
  heap s !! l = Some vis → dom vis ≠ ∅ →
  colorbar_scalars vis kwargs = Raise e →
  colorbar_body w (Some l) cmap discrete label cax kwargs s = (s, Raise e).
Proof.
  intros Hl Hdom Hsc.
  enough (wp (colorbar_body w (Some l) cmap discrete label cax kwargs) s
            (λ s' r, s' = s ∧ r = Raise e)) as Hwp.
  { unfold wp in Hwp. destruct (colorbar_body _ _ _ _ _ _ _ s) as [s' r].
    cbn in Hwp. by destruct Hwp as [-> ->]. }
  unfold colorbar_body.
  apply wp_bind, wp_load; [|congruence].
  intros d Hd. assert (d = vis) as -> by congruence.
  apply wp_bind. rewrite decide_False by done.
  apply wp_bind, wp_lift. by rewrite Hsc.
Qed.

(** X25.  The values of [vis_params] are checked only after the colorbar
    axes have been added to the figure: with a valid [loc], a minimum,
    maximum or opacity that is not an int or float makes the call raise,
    but the new axes (and the adjusted subplot margin) stay behind and no
    colorbar is drawn in them. *)
Theorem add_colorbar_axes_added_before_validation (w : world) (a : positive)
    (ax : value) (l : positive) (vis : gmap string value) (name : string)
    (cmap : option string) (discrete : bool) (label : option string)
    (kwargs : gmap string value) (s : state) (key : string) (v : value) :
  ax = VObj GeoAxesClass a ∨ ax = VObj GeoAxesSubplotClass a →
  name ∈ ["left"; "right"; "bottom"; "top"] →
  heap s !! l = Some vis →
  key ∈ ["min"; "max"; "opacity"] → vis !! key = Some v → is_scalar v = false →
  ∃ rect evs e,
    posOpts !! name = Some rect ∧
    add_colorbar w ax (Some l) (VStr name) cmap discrete label kwargs s
    = (State (heap s) (trace s ++ EAddAxes a rect :: evs), Raise e) ∧
    colorbars (EAddAxes a rect :: evs) = [].
Proof.
  intros Hax Hname Hl Hkey Hv Hscalar.
  destruct (colorbar_scalars_rejects vis kwargs key v Hkey Hv Hscalar) as [e He].
  destruct (resolve_placement_loc w a name kwargs s Hname) as (rect & evs & Hrect & Hrun).
  exists rect, evs, e. split; [done|].
  rewrite (add_colorbar_unfold w a) by done. rewrite Hrun.
  assert (dom vis ≠ ∅) as Hdom.
  { intros Hdom. apply (elem_of_dom_2 vis) in Hv. rewrite Hdom in Hv.
    by apply elem_of_empty in Hv. }
  split; [by apply (colorbar_body_rejects w l vis)|].
  pose proof (resolve_placement_quiet w a (VStr name) kwargs s) as Hq.
  unfold wp in Hq. rewrite Hrun in Hq. cbn [fst snd heap trace] in Hq.
  destruct Hq as (_ & Hq & _). unfold colorbars in *.
  rewrite omap_app in Hq. eapply app_inv_head. rewrite app_nil_r. exact Hq.
Qed.

Lemma add_colorbar_axes_added_before_validation_witness :
  ∃ rect evs e,
    posOpts !! "right" = Some rect ∧
    add_colorbar stub_world an_axes (Some 1%positive) (VStr "right") (Some "gray") false
      None ∅ (store_with {[ "min" := VStr "0" ]})
    = (State (heap (store_with {[ "min" := VStr "0" ]}))
             (trace (store_with {[ "min" := VStr "0" ]}) ++ EAddAxes 3 rect :: evs),
       Raise e) ∧
    colorbars (EAddAxes 3 rect :: evs) = [].
Proof.
  apply (add_colorbar_axes_added_before_validation stub_world 3 an_axes 1
           {[ "min" := VStr "0" ]} "right" (Some "gray") false None ∅
           (store_with {[ "min" := VStr "0" ]}) "min" (VStr "0")).
  - by right.
  - apply (bool_decide_unpack _). vm_compute. exact I.
  - reflexivity.
  - apply (bool_decide_unpack _). vm_compute. exact I.
  - reflexivity.
  - reflexivity.
Defined.
